(** * Voice announcement application: the scheduling and playback engine

    A shallow embedding of [main.py]: the [Announcement] entity and its text
    renderer, the [AnnouncementQueue] engine (first definitions), the
    placeholder classes that rebind both names further down the module, the
    periodic due-checker [VoiceAnnouncementApp.check_schedules], the
    variables editor of [AnnouncementEditDialog] and
    [VoiceAnnouncementApp.live_announcement]. *)

From Stdlib Require Import ZArith Lia Ascii String Sorted.
From stdpp Require Import base numbers list strings gmap functions.

Local Open Scope Z_scope.

(** ** Python values used by the program *)

(** Exceptions that the modelled fragment of the language can raise.  Every
    one of them derives from [Exception]. *)
Inductive ExcType : Type :=
| ValueError
| IndexError
| KeyError
| RuntimeError
| OverflowError.

Record PyExc : Type := Exc { exc_type : ExcType; exc_str : string }.

Inductive result (A : Type) : Type :=
| Return (a : A)
| Raise (e : PyExc).
Arguments Return {A} a.
Arguments Raise {A} e.

(** [lst[i]] for a Python list: negative indices count from the end, and an
    index outside [-len, len) raises [IndexError]. *)
Definition py_getitem {A} (lst : list A) (i : Z) : result A :=
  let n := Z.of_nat (length lst) in
  let j := if i <? 0 then i + n else i in
  if (j <? 0) || (n <=? j) then Raise (Exc IndexError "list index out of range")
  else match lst !! Z.to_nat j with
       | Some x => Return x
       | None => Raise (Exc IndexError "list index out of range")
       end.

(** [lst.remove(x)]: drops the first element equal to [x]; [ValueError] when
    there is none. *)
Fixpoint py_remove {A} `{EqDecision A} (x : A) (lst : list A) : result (list A) :=
  match lst with
  | [] => Raise (Exc ValueError "list.remove(x): x not in list")
  | y :: rest =>
      if decide (x = y) then Return rest
      else match py_remove x rest with
           | Return rest' => Return (y :: rest')
           | Raise e => Raise e
           end
  end.

(** ** [str.format] with keyword arguments only

    The formatter walks the template once.  Outside a replacement field a
    doubled brace is an escaped brace and a single closing brace is an error;
    inside a field the characters up to the closing brace are the field name.
    A field whose name is empty or a decimal number indexes the positional
    arguments, of which [get_text] passes none; any other name is
    looked up among the keyword arguments.  Strings are sequences of
    characters with code points below 256, where the decimal digits are
    exactly ['0'..'9'].

    Fields that go beyond a bare name (attribute access [.], indexing [[],
    conversion [!], format specification [:], or a nested opening brace) are
    outside the fragment: on such a template the scan answers [NotPlain] and
    the result is whatever the interpreter's formatter computes, see
    [str_format]. *)

Inductive FormatOutcome : Type :=
| Formatted (s : string)
| Raises (e : PyExc)
| NotPlain.

Inductive MarkupMode : Type :=
| InText
| InField (field_name : string).

Definition is_decimal_digit (c : ascii) : bool :=
  Ascii.leb "0"%char c && Ascii.leb c "9"%char.

Fixpoint all_decimal_digits (s : string) : bool :=
  match s with
  | EmptyString => true
  | String c s' => is_decimal_digit c && all_decimal_digits s'
  end.

(** A character that makes a replacement field more than a bare name. *)
Definition is_field_syntax (c : ascii) : bool :=
  Ascii.eqb c "."%char || Ascii.eqb c "["%char || Ascii.eqb c "!"%char || Ascii.eqb c ":"%char
  || Ascii.eqb c "{"%char.

(** The object a bare field name denotes, with no positional arguments. *)
Definition get_field_object (kwargs : gmap string string) (name : string)
  : result string :=
  if decide (name = EmptyString) then
    Raise (Exc IndexError "Replacement index 0 out of range for positional args tuple")
  else if all_decimal_digits name then
    Raise (Exc IndexError ("Replacement index " +:+ name +:+ " out of range for positional args tuple"))
  else match kwargs !! name with
       | Some v => Return v
       | None => Raise (Exc KeyError ("'" +:+ name +:+ "'"))
       end.

Definition emit (c : ascii) (o : FormatOutcome) : FormatOutcome :=
  match o with
  | Formatted s => Formatted (String c s)
  | _ => o
  end.

Definition emit_str (v : string) (o : FormatOutcome) : FormatOutcome :=
  match o with
  | Formatted s => Formatted (v +:+ s)
  | _ => o
  end.

Fixpoint do_markup (kwargs : gmap string string) (m : MarkupMode) (s : string)
  : FormatOutcome :=
  match s with
  | EmptyString =>
      match m with
      | InText => Formatted EmptyString
      | InField _ => Raises (Exc ValueError "expected '}' before end of string")
      end
  | String c s' =>
      match m with
      | InText =>
          if Ascii.eqb c "{"%char then
            match s' with
            | EmptyString => Raises (Exc ValueError "Single '{' encountered in format string")
            | String c' s'' =>
                if Ascii.eqb c' "{"%char then emit "{"%char (do_markup kwargs InText s'')
                else do_markup kwargs (InField EmptyString) s'
            end
          else if Ascii.eqb c "}"%char then
            match s' with
            | EmptyString => Raises (Exc ValueError "Single '}' encountered in format string")
            | String c' s'' =>
                if Ascii.eqb c' "}"%char then emit "}"%char (do_markup kwargs InText s'')
                else Raises (Exc ValueError "Single '}' encountered in format string")
            end
          else emit c (do_markup kwargs InText s')
      | InField name =>
          if Ascii.eqb c "}"%char then
            match get_field_object kwargs name with
            | Return v => emit_str v (do_markup kwargs InText s')
            | Raise e => Raises e
            end
          else if is_field_syntax c then NotPlain
          else do_markup kwargs (InField (name +:+ String c EmptyString)) s'
      end
  end.

(** ** The [Announcement] class (first definition) *)

(** Timestamps ([datetime]) and durations ([timedelta]) are counted in
    microseconds, the resolution of both types.  A [datetime] is the count
    since [datetime.min], 0001-01-01 00:00:00, and the last one is
    [datetime.max], 9999-12-31 23:59:59.999999: the 3652059 days of the
    calendar less one microsecond.  An addition whose result leaves this
    range raises [OverflowError]. *)
Definition datetime : Type := Z.
Definition timedelta : Type := Z.

Definition timedelta_days (d : Z) : timedelta := d * 86400000000.
Definition timedelta_weeks (w : Z) : timedelta := timedelta_days (7 * w).

Definition datetime_min : datetime := 0.
Definition datetime_max : datetime := 3652059 * 86400000000 - 1.

Definition in_range (t : Z) : bool := (datetime_min <=? t) && (t <=? datetime_max).

(** [t + d] for a [datetime] and a [timedelta]. *)
Definition datetime_add (t : datetime) (d : timedelta) : result datetime :=
  if in_range (t + d) then Return (t + d)
  else Raise (Exc OverflowError "date value out of range").

(** [repeat] is [None] or one of the strings ['daily'], ['weekly']. *)
Inductive Repeat : Type :=
| Daily
| Weekly.

Record Announcement : Type := mkAnnouncement {
  text_template : string;
  play_time : datetime;
  repeat : option Repeat;
  voice_id : Z;
  priority : Z;
  variables : gmap string string;
  (** Not set by [__init__] and never read by the queue: the attribute the
      edit dialog looks for with [getattr(announcement, 'repeat_end', None)]
      and returns under the key ["repeat_end"]. *)
  repeat_end : option datetime
}.

(** [Announcement.__init__], with [variables or {}]. *)
Definition Announcement__init__ (text_template : string) (play_time : datetime)
    (repeat : option Repeat) (voice_id priority : Z)
    (variables : option (gmap string string)) : Announcement :=
  {| text_template := text_template;
     play_time := play_time;
     repeat := repeat;
     voice_id := voice_id;
     priority := priority;
     variables := default ∅ variables;
     repeat_end := None |}.

Definition set_play_time (t : datetime) (self : Announcement) : Announcement :=
  {| text_template := text_template self;
     play_time := t;
     repeat := repeat self;
     voice_id := voice_id self;
     priority := priority self;
     variables := variables self;
     repeat_end := repeat_end self |}.

Definition is_due (self : Announcement) (now : datetime) : bool :=
  play_time self <=? now.

(** [reschedule] mutates [self.play_time]; the result is the object after the
    call, or the exception of [self.play_time += timedelta(...)], which leaves
    the object as it was. *)
Definition reschedule (self : Announcement) : result Announcement :=
  match repeat self with
  | Some Daily =>
      match datetime_add (play_time self) (timedelta_days 1) with
      | Return t => Return (set_play_time t self)
      | Raise e => Raise e
      end
  | Some Weekly =>
      match datetime_add (play_time self) (timedelta_weeks 1) with
      | Return t => Return (set_play_time t self)
      | Raise e => Raise e
      end
  | None => Return self
  end.

(** ** [list.sort(key=...)]

    The sort is stable and compares keys with [<] only.  Keys here are the
    pairs [(-priority, play_time)], ordered lexicographically as tuples are.
    A stable sort has one possible result (see [sort_by_key_unique] below),
    so the insertion sort that follows computes the list the interpreter's
    sort leaves behind. *)

Definition SortKey : Type := (Z * Z)%type.

Definition key_lt (k1 k2 : SortKey) : bool :=
  (k1.1 <? k2.1) || ((k1.1 =? k2.1) && (k1.2 <? k2.2)).

Definition key_le (k1 k2 : SortKey) : bool := negb (key_lt k2 k1).

Fixpoint insert_by_key {A} (key : A → SortKey) (x : A) (l : list A) : list A :=
  match l with
  | [] => [x]
  | y :: l' =>
      if key_lt (key y) (key x) then y :: insert_by_key key x l'
      else x :: y :: l'
  end.

Definition sort_by_key {A} (key : A → SortKey) (l : list A) : list A :=
  foldr (insert_by_key key) [] l.

(** ** The queue manager and the world around it *)

(** Announcements are objects: the queue and the watch list hold references,
    and [reschedule] mutates the object every holder sees. *)
Definition ref : Type := nat.

#[global] Instance ref_eq_dec : EqDecision ref := Nat.eq_dec.

(** The thread created by [_try_play_next], once started. *)
Record Thread : Type := mkThread {
  thread_args : ref;       (* args=(next_ann,) of target=_play_announcement *)
  is_alive : bool
}.

(** A voice of the speech engine. *)
Module Voice.
Record t : Type := mk { name : string; id : string }.
End Voice.

Inductive PyValue : Type :=
| PyStr (s : string)
| PyInt (z : Z)
| PyFloat (tenths : Z).          (* 1.0 is [PyFloat 10] *)

(** Calls received by the [pyttsx3] engine. *)
Inductive EngineCall : Type :=
| SetProperty (prop : string) (value : PyValue)
| Say (text : string)
| RunAndWait
| Stop.

(** The three attributes the queue shares between its callers and its
    playback thread, and a record of every access to them: which attribute,
    whether it was written, and whether [self.lock] was held at that point. *)
Inductive SharedField : Type :=
| Fqueue
| Fcurrent_announcement
| Finterrupted.

Inductive AccessKind : Type :=
| Load
| Store.

Record Access : Type := mkAccess {
  acc_field : SharedField;
  acc_kind : AccessKind;
  acc_locked : bool
}.

Record World : Type := mkWorld {
  heap : ref → Announcement;               (* the Announcement objects *)
  (* attributes of the AnnouncementQueue object *)
  queue : list ref;
  current_announcement : option ref;
  voices : list Voice.t;
  lock : bool;                             (* [true] while self.lock is held *)
  playing_thread : option Thread;
  interrupted : bool;
  (* what the collaborators have observed so far, oldest first *)
  engine : list EngineCall;
  status_bar : list string;                (* showMessage texts *)
  started : list ref;                      (* Thread.start() calls, by argument *)
  accesses : list Access
}.

(** [AnnouncementQueue.__init__]. *)
Definition AnnouncementQueue__init__ (heap : ref → Announcement)
    (voices : list Voice.t) : World :=
  {| heap := heap; queue := []; current_announcement := None;
     voices := voices; lock := false; playing_thread := None;
     interrupted := false; engine := []; status_bar := [];
     started := []; accesses := [] |}.

(** *** A state monad over the world *)

Definition M (A : Type) : Type := World → A * World.

#[global] Instance M_ret : MRet M := λ A a w, (a, w).
#[global] Instance M_bind : MBind M :=
  λ A B f m w, let '(a, w') := m w in f a w'.

Definition exec {A} (m : M A) (w : World) : World := (m w).2.

Definition get_world : M World := λ w, (w, w).

Definition record_access (f : SharedField) (k : AccessKind) : M unit := λ w,
  (tt, {| heap := heap w; queue := queue w;
          current_announcement := current_announcement w;
          voices := voices w; lock := lock w;
          playing_thread := playing_thread w; interrupted := interrupted w;
          engine := engine w; status_bar := status_bar w;
          started := started w;
          accesses := accesses w ++ [mkAccess f k (lock w)] |}).

Definition put_queue (q : list ref) : M unit := λ w,
  (tt, {| heap := heap w; queue := q;
          current_announcement := current_announcement w;
          voices := voices w; lock := lock w;
          playing_thread := playing_thread w; interrupted := interrupted w;
          engine := engine w; status_bar := status_bar w;
          started := started w; accesses := accesses w |}).

Definition put_current_announcement (c : option ref) : M unit := λ w,
  (tt, {| heap := heap w; queue := queue w;
          current_announcement := c;
          voices := voices w; lock := lock w;
          playing_thread := playing_thread w; interrupted := interrupted w;
          engine := engine w; status_bar := status_bar w;
          started := started w; accesses := accesses w |}).

Definition put_interrupted (b : bool) : M unit := λ w,
  (tt, {| heap := heap w; queue := queue w;
          current_announcement := current_announcement w;
          voices := voices w; lock := lock w;
          playing_thread := playing_thread w; interrupted := b;
          engine := engine w; status_bar := status_bar w;
          started := started w; accesses := accesses w |}).

Definition put_lock (b : bool) : M unit := λ w,
  (tt, {| heap := heap w; queue := queue w;
          current_announcement := current_announcement w;
          voices := voices w; lock := b;
          playing_thread := playing_thread w; interrupted := interrupted w;
          engine := engine w; status_bar := status_bar w;
          started := started w; accesses := accesses w |}).

Definition put_playing_thread (t : option Thread) : M unit := λ w,
  (tt, {| heap := heap w; queue := queue w;
          current_announcement := current_announcement w;
          voices := voices w; lock := lock w;
          playing_thread := t; interrupted := interrupted w;
          engine := engine w; status_bar := status_bar w;
          started := started w; accesses := accesses w |}).

Definition put_heap (h : ref → Announcement) : M unit := λ w,
  (tt, {| heap := h; queue := queue w;
          current_announcement := current_announcement w;
          voices := voices w; lock := lock w;
          playing_thread := playing_thread w; interrupted := interrupted w;
          engine := engine w; status_bar := status_bar w;
          started := started w; accesses := accesses w |}).

Definition engine_call (c : EngineCall) : M unit := λ w,
  (tt, {| heap := heap w; queue := queue w;
          current_announcement := current_announcement w;
          voices := voices w; lock := lock w;
          playing_thread := playing_thread w; interrupted := interrupted w;
          engine := engine w ++ [c]; status_bar := status_bar w;
          started := started w; accesses := accesses w |}).

Definition showMessage (msg : string) : M unit := λ w,
  (tt, {| heap := heap w; queue := queue w;
          current_announcement := current_announcement w;
          voices := voices w; lock := lock w;
          playing_thread := playing_thread w; interrupted := interrupted w;
          engine := engine w; status_bar := status_bar w ++ [msg];
          started := started w; accesses := accesses w |}).

Definition record_start (a : ref) : M unit := λ w,
  (tt, {| heap := heap w; queue := queue w;
          current_announcement := current_announcement w;
          voices := voices w; lock := lock w;
          playing_thread := playing_thread w; interrupted := interrupted w;
          engine := engine w; status_bar := status_bar w;
          started := started w ++ [a]; accesses := accesses w |}).

(** Attribute accesses as the methods perform them. *)
Definition load_queue : M (list ref) :=
  record_access Fqueue Load;; w ← get_world; mret (queue w).

(** A mutating list method ([append], [sort], [insert], [pop]). *)
Definition mutate_queue (f : list ref → list ref) : M unit :=
  record_access Fqueue Store;; w ← get_world; put_queue (f (queue w)).

Definition store_current_announcement (c : option ref) : M unit :=
  record_access Fcurrent_announcement Store;; put_current_announcement c.

Definition store_interrupted (b : bool) : M unit :=
  record_access Finterrupted Store;; put_interrupted b.

Definition load_object (a : ref) : M Announcement :=
  w ← get_world; mret (heap w a).

Definition store_object (a : ref) (v : Announcement) : M unit :=
  w ← get_world; put_heap (<[a := v]> (heap w)).

(** [with self.lock: body].  Every method leaves the block before it returns
    and none enters it twice, so the lock is free whenever it is taken (see
    [lock_free_after] below). *)
Definition with_lock (body : M unit) : M unit :=
  put_lock true;; body;; put_lock false.

(** [self.playing_thread and self.playing_thread.is_alive()]. *)
Definition thread_running (t : option Thread) : bool :=
  match t with
  | Some th => is_alive th
  | None => false
  end.

(** The queue's sort key, [lambda a: (-a.priority, a.play_time)]. *)
Definition queue_key (h : ref → Announcement) (a : ref) : SortKey :=
  (- priority (h a), play_time (h a)).

(** What the speech engine does with one utterance: it speaks it to the end
    (or until it is stopped), or one of its two calls raises. *)
Inductive SpeechSink : Type :=
| Speaks
| SayRaises (e : PyExc)
| RunAndWaitRaises (e : PyExc).

(** What callers can do to the queue, and the one thing its thread does. *)
Inductive Call : Type :=
| CallAdd (announcement : ref)
| CallInterrupt (announcement : ref).

Inductive Event : Type :=
| Caller (c : Call)
| PlaybackReturns (sink : SpeechSink).

(** A burst of [add_announcement] calls. *)
Definition adds (l : list ref) : list Event := (λ a, Caller (CallAdd a)) <$> l.

Section Engine.

(** The interpreter's [str.format] on the templates that [do_markup] leaves
    aside. *)
Variable format_beyond_names : string → gmap string string → result string.

Definition str_format (template : string) (kwargs : gmap string string)
  : result string :=
  match do_markup kwargs InText template with
  | Formatted s => Return s
  | Raises e => Raise e
  | NotPlain => format_beyond_names template kwargs
  end.

(** [Announcement.get_text]: [try: return format(...) except Exception:
    return self.text_template]. *)
Definition get_text (self : Announcement) : string :=
  match str_format (text_template self) (variables self) with
  | Return s => s
  | Raise _ => text_template self
  end.

Definition _try_play_next : M unit :=
  w ← get_world;
  if thread_running (playing_thread w) then mret tt      (* Already playing *)
  else
    q ← load_queue;
    match q with
    | [] => mret tt
    | next_ann :: _ =>
        mutate_queue (drop 1);;                         (* self.queue.pop(0) *)
        store_current_announcement (Some next_ann);;
        store_interrupted false;;
        put_playing_thread (Some (mkThread next_ann true));;
        record_start next_ann
    end.

Definition add_announcement (announcement : ref) : M unit :=
  with_lock (
    mutate_queue (λ q, q ++ [announcement]);;
    w ← get_world;
    mutate_queue (sort_by_key (queue_key (heap w))));;
  a ← load_object announcement;
  showMessage ("Announcement queued: " +:+ get_text a);;
  _try_play_next.

Definition interrupt_with_live (announcement : ref) : M unit :=
  with_lock (
    w ← get_world;
    (if thread_running (playing_thread w) then
       store_interrupted true;;
       engine_call Stop
     else mret tt);;
    mutate_queue (λ q, announcement :: q));;
  showMessage "Live announcement started...";;
  _try_play_next.

(** The [try] block of [_play_announcement]: the exception it ends with, if
    any. *)
Definition speak (a : Announcement) (sink : SpeechSink) : M (option PyExc) :=
  w ← get_world;
  match py_getitem (voices w) (voice_id a) with
  | Raise e => mret (Some e)
  | Return voice =>
      engine_call (SetProperty "voice" (PyStr (Voice.id voice)));;
      engine_call (SetProperty "rate" (PyInt 150));;
      engine_call (SetProperty "volume" (PyFloat 10));;
      let text := get_text a in
      showMessage ("Playing: " +:+ text);;
      engine_call (Say text);;
      match sink with
      | SayRaises e => mret (Some e)
      | RunAndWaitRaises e => engine_call RunAndWait;; mret (Some e)
      | Speaks => engine_call RunAndWait;; mret None
      end
  end.

(** [_play_announcement].  An exception of the [try] block is caught and
    shown.  An exception of [reschedule] is raised inside the [finally] block
    and is caught nowhere: it ends the method there, before
    [add_announcement] and before [current_announcement] is cleared, and
    leaves the method as its result. *)
Definition _play_announcement (announcement : ref) (sink : SpeechSink)
  : M (result unit) :=
  a ← load_object announcement;
  raised ← speak a sink;
  match raised with
  | Some e => showMessage ("Error playing announcement: " +:+ exc_str e)
  | None => mret tt
  end;;
  (* finally *)
  a ← load_object announcement;
  requeued ← match repeat a with
             | Some _ =>                        (* if announcement.repeat *)
                 match reschedule a with
                 | Return a' =>
                     store_object announcement a';;
                     add_announcement announcement;;
                     mret (Return tt)
                 | Raise e => mret (Raise e)
                 end
             | None => mret (Return tt)
             end;
  match requeued with
  | Return _ =>
      store_current_announcement None;;
      _try_play_next;;
      mret (Return tt)
  | Raise e => mret (Raise e)
  end.

(** The playback thread runs [_play_announcement] on its argument and ends.
    Its run is taken in one piece, at the moment the playback returns: the
    calls that arrive while the announcement plays are the events before
    [PlaybackReturns].  While the thread runs, and so throughout
    [_play_announcement], [is_alive()] is true; once it has ended, by
    returning or by an exception that nothing caught, it is false. *)
Definition thread_exit : M unit :=
  w ← get_world;
  match playing_thread w with
  | Some th => put_playing_thread (Some (mkThread (thread_args th) false))
  | None => mret tt
  end.

Definition playback_returns (sink : SpeechSink) : M unit :=
  w ← get_world;
  match playing_thread w with
  | Some th =>
      if is_alive th then _play_announcement (thread_args th) sink;; thread_exit
      else mret tt
  | None => mret tt
  end.

Definition call (c : Call) : M unit :=
  match c with
  | CallAdd a => add_announcement a
  | CallInterrupt a => interrupt_with_live a
  end.

Definition step (ev : Event) : M unit :=
  match ev with
  | Caller c => call c
  | PlaybackReturns sink => playback_returns sink
  end.

Definition run (evs : list Event) (w : World) : World :=
  foldl (λ w ev, exec (step ev) w) w evs.

(** *** The due-checker, [VoiceAnnouncementApp.check_schedules]

    The watch list is the list object [schedule_manager_announcements]
    returns; it holds announcements of the engine's class and the tick hands
    them to the engine's [add_announcement].  [now] is [datetime.now()].

    [for ann in watch] reads [watch[i]] for i = 0, 1, ... from the list as it
    is at that moment and stops when [i] reaches its length; the body may
    shorten the list.  [fuel] bounds the number of iterations; the length of
    the list is enough ([check_schedules_fuel]).  The result is the watch list
    after the tick. *)
Fixpoint check_loop (fuel : nat) (now : datetime) (i : nat) (watch : list ref)
  : M (result (list ref)) :=
  match fuel with
  | O => mret (Return watch)
  | S fuel' =>
      match watch !! i with
      | None => mret (Return watch)
      | Some ann =>
          a ← load_object ann;
          if is_due a now then
            add_announcement ann;;
            a' ← load_object ann;
            match repeat a' with
            | Some _ => check_loop fuel' now (S i) watch
            | None =>                               (* if not ann.repeat *)
                match py_remove ann watch with
                | Return watch' => check_loop fuel' now (S i) watch'
                | Raise e => mret (Raise e)
                end
            end
          else check_loop fuel' now (S i) watch
      end
  end.

Definition check_schedules (now : datetime) (watch : list ref)
  : M (result (list ref)) :=
  check_loop (length watch) now 0 watch.

End Engine.

(** ** The definitions bound when the program runs

    Further down, the module defines [Announcement] and [AnnouncementQueue]
    again; [VoiceAnnouncementApp] is defined after that and so instantiates
    these. *)
Module Rebound.

Record Announcement : Type := mkAnnouncement {
  text : string;
  created_at : datetime;
  priority : Z
}.

Definition Announcement__init__ (text : string) (created_at : datetime)
    (priority : option Z) : Announcement :=
  {| text := text; created_at := created_at; priority := default 5 priority |}.

Definition is_due (self : Announcement) (now : datetime) : bool := true.

Record World : Type := mkWorld {
  heap : ref → Announcement;
  queue : list ref;
  voices : list Voice.t;
  status_bar : list string
}.

Definition AnnouncementQueue__init__ (heap : ref → Announcement)
    (voices : list Voice.t) : World :=
  {| heap := heap; queue := []; voices := voices; status_bar := [] |}.

Definition interrupt_with_live (ann : ref) (w : World) : World :=
  {| heap := heap w; queue := queue w; voices := voices w;
     status_bar := status_bar w ++ ["Live: " +:+ text (heap w ann)] |}.

Definition add_announcement (ann : ref) (w : World) : World :=
  {| heap := heap w; queue := queue w ++ [ann]; voices := voices w;
     status_bar := status_bar w ++ ["Queued: " +:+ text (heap w ann)] |}.

Definition call (c : Call) (w : World) : World :=
  match c with
  | CallAdd a => add_announcement a w
  | CallInterrupt a => interrupt_with_live a w
  end.

Definition run (cs : list Call) (w : World) : World :=
  foldl (λ w c, call c w) w cs.

End Rebound.

(** ** The variables editor of [AnnouncementEditDialog]

    [init_ui] writes the variables of an announcement into a text editor, one
    [key=value] line each, and [get_announcement] reads the text back into a
    dict.  Characters are the code points below 256.  [py_isspace] is the set
    of characters that [str.strip()] removes and [is_linebreak] the set of
    line boundaries of [str.splitlines()], both within that range. *)
Definition py_isspace (c : ascii) : bool :=
  let n := N_of_ascii c in
  ((9 <=? n) && (n <=? 13) || (28 <=? n) && (n <=? 32)
   || (n =? 133) || (n =? 160))%N.

Definition is_linebreak (c : ascii) : bool :=
  let n := N_of_ascii c in
  ((10 <=? n) && (n <=? 13) || (28 <=? n) && (n <=? 30) || (n =? 133))%N.

Fixpoint py_lstrip (s : string) : string :=
  match s with
  | EmptyString => EmptyString
  | String c s' => if py_isspace c then py_lstrip s' else s
  end.

Fixpoint py_rstrip (s : string) : string :=
  match s with
  | EmptyString => EmptyString
  | String c s' =>
      match py_rstrip s' with
      | EmptyString => if py_isspace c then EmptyString else String c EmptyString
      | r => String c r
      end
  end.

(** [s.strip()] *)
Definition py_strip (s : string) : string := py_lstrip (py_rstrip s).

(** [s.splitlines()]: the lines without their boundaries.  A carriage return
    followed by a line feed is one boundary, and a boundary at the very end
    of the text opens no further line. *)
Fixpoint py_splitlines (s : string) : list string :=
  match s with
  | EmptyString => []
  | String c s' =>
      if is_linebreak c then
        EmptyString ::
          (if Ascii.eqb c "013"%char then
             match s' with
             | EmptyString => []
             | String c' s'' =>
                 if Ascii.eqb c' "010"%char then py_splitlines s''
                 else py_splitlines s'
             end
           else py_splitlines s')
      else
        match py_splitlines s' with
        | [] => [String c EmptyString]
        | line :: lines => String c line :: lines
        end
  end.

(** [sep.join(parts)] *)
Fixpoint py_join (sep : string) (parts : list string) : string :=
  match parts with
  | [] => EmptyString
  | p :: ps =>
      match ps with
      | [] => p
      | _ :: _ => p +:+ sep +:+ py_join sep ps
      end
  end.

(** [line.split('=', 1)] for a line with ['=' in line]: the text before the
    first ['='] and the text after it.  [None] when the line has no ['=']. *)
Fixpoint split_at_equals (line : string) : option (string * string) :=
  match line with
  | EmptyString => None
  | String c rest =>
      if Ascii.eqb c "="%char then Some (EmptyString, rest)
      else match split_at_equals rest with
           | Some (k, v) => Some (String c k, v)
           | None => None
           end
  end.

(** The body of the loop of [get_announcement] over the lines of the editor,
    and the loop: [if '=' in line: k, v = line.split('=', 1);
    variables[k.strip()] = v.strip()]. *)
Definition add_line (variables : gmap string string) (line : string)
  : gmap string string :=
  match split_at_equals line with
  | Some (k, v) => <[py_strip k := py_strip v]> variables
  | None => variables
  end.

Definition get_announcement_variables (variables_text : string)
  : gmap string string :=
  foldl add_line ∅ (py_splitlines variables_text).

Definition newline : string := String "010"%char EmptyString.

(** The text that [init_ui] puts into the editor.  [items] stands for
    [self.announcement.variables.items()], in the order the dict yields them;
    it is [None] when the dialog is opened without an announcement. *)
Definition init_ui_variables_text (items : option (list (string * string)))
  : string :=
  match items with
  | Some ((_ :: _) as kvs) =>
      py_join newline ((λ kv, kv.1 +:+ "=" +:+ kv.2) <$> kvs)
  | _ => "train_no=123" +:+ newline +:+ "platform=4"
  end.

(** ** [VoiceAnnouncementApp.live_announcement]

    [text] and [ok] are what the input dialog returns and [now] is
    [datetime.now()].  The classes are those bound when the program runs;
    [fresh] is the reference of the object that [Announcement(...)] creates. *)
Definition live_announcement (text : string) (ok : bool) (now : datetime)
    (fresh : ref) (w : Rebound.World) : Rebound.World :=
  if ok && negb (String.eqb (py_strip text) EmptyString) then
    let ann := Rebound.Announcement__init__ text now (Some 10) in
    Rebound.interrupt_with_live fresh
      {| Rebound.heap := <[fresh := ann]> (Rebound.heap w);
         Rebound.queue := Rebound.queue w;
         Rebound.voices := Rebound.voices w;
         Rebound.status_bar := Rebound.status_bar w |}
  else w.

(** ** Notions used to state the properties *)

(** Equal keys, sortedness under the key order, and the sublist of the
    elements that carry a given key (in list order): a sort is stable when it
    leaves each such sublist as it was. *)
Definition key_eqb (k1 k2 : SortKey) : bool := (k1.1 =? k2.1) && (k1.2 =? k2.2).

Definition sorted_by_key {A} (key : A → SortKey) (l : list A) : Prop :=
  StronglySorted (λ x y, key_le (key x) (key y) = true) l.


(** A template written as literal characters and named placeholders, the text
    it stands for, and the string it renders to when every placeholder has a
    value. *)
Inductive TemplatePart : Type :=
| Literal (c : ascii)
| Placeholder (field_name : string).

Definition part_text (p : TemplatePart) : string :=
  match p with
  | Literal c =>
      if Ascii.eqb c "{"%char then "{{"
      else if Ascii.eqb c "}"%char then "}}"
      else String c EmptyString
  | Placeholder n => "{" +:+ n +:+ "}"
  end.

Definition template_text (parts : list TemplatePart) : string :=
  foldr (λ p s, part_text p +:+ s) EmptyString parts.

Fixpoint substituted (kwargs : gmap string string) (parts : list TemplatePart)
  : option string :=
  match parts with
  | [] => Some EmptyString
  | Literal c :: ps => String c <$> substituted kwargs ps
  | Placeholder n :: ps =>
      match kwargs !! n, substituted kwargs ps with
      | Some v, Some s => Some (v +:+ s)
      | _, _ => None
      end
  end.

(** A placeholder is a named one when its name is not empty, is not a
    number, and has none of the characters of the field syntax. *)
Fixpoint name_chars (s : string) : bool :=
  match s with
  | EmptyString => true
  | String c s' =>
      negb (Ascii.eqb c "}"%char) && negb (is_field_syntax c) && name_chars s'
  end.

Definition is_name (n : string) : bool :=
  negb (String.eqb n EmptyString) && negb (all_decimal_digits n) && name_chars n.

Definition named (p : TemplatePart) : Prop :=
  match p with
  | Literal _ => True
  | Placeholder n => is_name n = true
  end.

(** Every recorded access to [interrupted] is a write. *)
Definition interrupted_only_stored (w : World) : Prop :=
  Forall (λ acc, acc_field acc = Finterrupted → acc_kind acc = Store) (accesses w).

(** Two worlds that differ at most in the texts shown and spoken. *)
Definition same_schedule (w1 w2 : World) : Prop :=
  heap w1 = heap w2 ∧ queue w1 = queue w2 ∧
  current_announcement w1 = current_announcement w2 ∧
  voices w1 = voices w2 ∧ lock w1 = lock w2 ∧
  playing_thread w1 = playing_thread w2 ∧ interrupted w1 = interrupted w2 ∧
  started w1 = started w2 ∧ accesses w1 = accesses w2.

(** Two worlds that differ at most in the [interrupted] flag. *)
Definition same_but_interrupted (w1 w2 : World) : Prop :=
  heap w1 = heap w2 ∧ queue w1 = queue w2 ∧
  current_announcement w1 = current_announcement w2 ∧
  voices w1 = voices w2 ∧ lock w1 = lock w2 ∧
  playing_thread w1 = playing_thread w2 ∧
  engine w1 = engine w2 ∧ status_bar w1 = status_bar w2 ∧
  started w1 = started w2 ∧ accesses w1 = accesses w2.

(** The announcements that the callers hand to the queue, in call order, and
    those among them handed to [add_announcement]. *)
Definition call_args (evs : list Event) : list ref :=
  omap (λ ev, match ev with
              | Caller (CallAdd a) | Caller (CallInterrupt a) => Some a
              | PlaybackReturns _ => None
              end) evs.

Definition added (cs : list Call) : list ref :=
  omap (λ c, match c with CallAdd a => Some a | CallInterrupt _ => None end) cs.

(** The queue is in step with its playback thread: the thread, if there is
    one, was started last and for the announcement it holds.  While the
    thread is alive [current_announcement] is that announcement.  Once the
    thread has ended [current_announcement] is [None], unless the thread
    died in [reschedule]: then it still is that announcement, a recurring one
    that cannot be rescheduled. *)
Definition in_step (w : World) : Prop :=
  match playing_thread w with
  | Some th =>
      list.last (started w) = Some (thread_args th) ∧
      if is_alive th then current_announcement w = Some (thread_args th)
      else current_announcement w = None ∨
           (current_announcement w = Some (thread_args th) ∧
            repeat (heap w (thread_args th)) ≠ None ∧
            ∃ e, reschedule (heap w (thread_args th)) = Raise e)
  | None => started w = [] ∧ current_announcement w = None
  end.

(** The interval of a recurrence, and [n] calls of [reschedule] in a row:
    the object after the last call, or the exception of the first call that
    raises. *)
Definition interval (r : Repeat) : timedelta :=
  match r with
  | Daily => timedelta_days 1
  | Weekly => timedelta_weeks 1
  end.

Fixpoint reschedule_n (n : nat) (a : Announcement) : result Announcement :=
  match n with
  | O => Return a
  | S n' =>
      match reschedule a with
      | Return a' => reschedule_n n' a'
      | Raise e => Raise e
      end
  end.

(** Strings whose characters all pass a test: a template without braces, a
    text on one line, and the keys and values that the variables editor
    returns unchanged. *)
Fixpoint all_chars (p : ascii → bool) (s : string) : bool :=
  match s with
  | EmptyString => true
  | String c s' => p c && all_chars p s'
  end.

Definition no_braces (s : string) : bool :=
  all_chars (λ c, negb (Ascii.eqb c "{"%char) && negb (Ascii.eqb c "}"%char)) s.

Definition one_line (s : string) : Prop :=
  all_chars (λ c, negb (is_linebreak c)) s = true.

Definition clean_key (k : string) : Prop :=
  py_strip k = k ∧ one_line k ∧
  all_chars (λ c, negb (Ascii.eqb c "="%char)) k = true.

Definition clean_value (v : string) : Prop :=
  py_strip v = v ∧ one_line v.





(** ** Sample data for the closed examples *)

(** A formatter that rejects whatever goes beyond bare names.  The templates
    of the examples below stay within bare names, where [str_format] does not
    consult it. *)
Definition names_only (template : string) (kwargs : gmap string string)
  : result string :=
  Raise (Exc ValueError "Invalid format specifier").

(** A time of day on the first day of the calendar. *)
Definition clock (hours minutes : Z) : datetime :=
  (hours * 3600 + minutes * 60) * 1000000.

Definition one_voice : list Voice.t := [Voice.mk "default" "voice0"].

Definition plain (text : string) (t : datetime) (r : option Repeat) (p : Z)
  : Announcement :=
  Announcement__init__ text t r 0 p None.

(** A(priority=1, 10:00), B(priority=5, 10:05), C(priority=5, 10:01). *)
Definition heap_abc (a : ref) : Announcement :=
  match a with
  | 0%nat => plain "A" (clock 10 0) None 1
  | 1%nat => plain "B" (clock 10 5) None 5
  | _ => plain "C" (clock 10 1) None 5
  end.

(** Y (playing), X(priority=9), Z(priority=1, live), then W(priority=1) for
    every further reference. *)
Definition heap_yxzw (a : ref) : Announcement :=
  match a with
  | 0%nat => plain "Y" (clock 9 0) None 5
  | 1%nat => plain "X" (clock 9 30) None 9
  | 2%nat => plain "Z" (clock 9 31) None 1
  | _ => plain "W" (clock 9 32) None 1
  end.

(** A weekly announcement whose [repeat_end] lies two days after its
    [play_time], and a one-shot one. *)
Definition weekly_until : Announcement :=
  {| text_template := "Weekly test"; play_time := clock 8 0;
     repeat := Some Weekly; voice_id := 0; priority := 1; variables := ∅;
     repeat_end := Some (clock 8 0 + timedelta_days 2) |}.

Definition heap_weekly (a : ref) : Announcement :=
  match a with
  | 0%nat => weekly_until
  | _ => plain "Once" (clock 8 5) None 1
  end.

Definition device_unavailable : PyExc := Exc RuntimeError "device unavailable".

(** The last day of the calendar, 9999-12-31, as a count of days since
    0001-01-01, a time of day on a given day, and a daily announcement due at
    noon of the last day. *)
Definition last_day : Z := 3652058.

Definition clock_on (day hours minutes : Z) : datetime :=
  timedelta_days day + clock hours minutes.

Definition heap_last_day (a : ref) : Announcement :=
  plain "Year's end" (clock_on last_day 12 0) (Some Daily) 1.

(** Objects of the second [Announcement] class, as [live_announcement]
    creates them. *)
Definition rebound_heap (a : ref) : Rebound.Announcement :=
  Rebound.Announcement__init__ "Attention please" (clock 10 0) (Some 10).

(** Announcements that ask for the voice at a given index, two voices, and a
    queue that has just started announcement [0]. *)
Definition heap_voice (vid : Z) (a : ref) : Announcement :=
  Announcement__init__ "Platform change" (clock 10 0) None vid 1 None.

Definition two_voices : list Voice.t :=
  [Voice.mk "default" "voice0"; Voice.mk "second" "voice1"].

Definition playing_first (h : ref → Announcement) (vs : list Voice.t) : World :=
  exec (add_announcement names_only 0%nat) (AnnouncementQueue__init__ h vs).

(** Variables as an operator may have typed them. *)
Definition gate_items : list (string * string) :=
  [("gate", "B 12"); ("delay", "5=five")].

Definition gate_variables : gmap string string := list_to_map gate_items.

(** * Properties *)

(** ** The key order and the stable sort *)

Ltac key_solve :=
  unfold key_le, key_lt, key_eqb in *; simpl in *;
  repeat match goal with
         | |- context [?a <? ?b] => destruct (Z.ltb_spec a b)
         | |- context [?a =? ?b] => destruct (Z.eqb_spec a b)
         | H : context [?a <? ?b] |- _ => destruct (Z.ltb_spec a b)
         | H : context [?a =? ?b] |- _ => destruct (Z.eqb_spec a b)
         end;
  simpl in *; try congruence; try lia.



Lemma key_le_trans k1 k2 k3 :
  key_le k1 k2 = true → key_le k2 k3 = true → key_le k1 k3 = true.
Proof. destruct k1, k2, k3. intros H1 H2. key_solve. Qed.


Lemma key_lt_le k1 k2 : key_lt k1 k2 = true → key_le k1 k2 = true.
Proof. destruct k1, k2. intros H. key_solve. Qed.


Section StableSort.
Context {A : Type} (key : A → SortKey).

Lemma insert_by_key_elem x y l :
  y ∈ insert_by_key key x l ↔ y = x ∨ y ∈ l.
Proof.
  induction l as [|z l IH]; simpl.
  - rewrite list_elem_of_singleton, elem_of_nil. tauto.
  - destruct (key_lt (key z) (key x)).
    + rewrite !elem_of_cons, IH. tauto.
    + rewrite !elem_of_cons. tauto.
Qed.

Lemma insert_by_key_sorted x l :
  sorted_by_key key l → sorted_by_key key (insert_by_key key x l).
Proof.
  unfold sorted_by_key. induction 1 as [|z l Hs IH Hz]; simpl.
  - repeat constructor.
  - destruct (key_lt (key z) (key x)) eqn:E.
    + constructor; [exact IH|].
      apply list.Forall_forall. intros y Hy. apply insert_by_key_elem in Hy as [->|Hy].
      * by apply key_lt_le.
      * rewrite list.Forall_forall in Hz. by apply Hz.
    + constructor; [by constructor|].
      assert (Hxz : key_le (key x) (key z) = true) by (unfold key_le; by rewrite E).
      constructor; [exact Hxz|].
      apply list.Forall_forall. intros y Hy.
      rewrite list.Forall_forall in Hz.
      eapply key_le_trans; [exact Hxz|]. by apply Hz.
Qed.

Lemma sort_by_key_sorted l : sorted_by_key key (sort_by_key key l).
Proof.
  induction l as [|x l IH]; simpl; [constructor|].
  by apply insert_by_key_sorted.
Qed.








Lemma sort_by_key_perm l : sort_by_key key l ≡ₚ l.
Proof.
  induction l as [|x l IH]; [done|]. simpl.
  rewrite <- IH at 2. clear IH. generalize (sort_by_key key l). intros s.
  induction s as [|z s IH]; simpl; [done|].
  destruct (key_lt (key z) (key x)); [|done].
  rewrite IH. apply Permutation_swap.
Qed.


End StableSort.


(** ** Strings *)

Lemma append_nil_l (s : string) : EmptyString +:+ s = s.
Proof. reflexivity. Qed.

Lemma append_cons (c : ascii) (s t : string) : String c s +:+ t = String c (s +:+ t).
Proof. reflexivity. Qed.

Lemma append_nil_r (s : string) : s +:+ EmptyString = s.
Proof. induction s as [|c s IH]; [done|]. by rewrite append_cons, IH. Qed.

Lemma append_assoc (s1 s2 s3 : string) : (s1 +:+ s2) +:+ s3 = s1 +:+ (s2 +:+ s3).
Proof. induction s1 as [|c s1 IH]; [done|]. by rewrite !append_cons, IH. Qed.

(** ** Rescheduling *)

Lemma in_range_spec t : in_range t = true ↔ datetime_min ≤ t ≤ datetime_max.
Proof. unfold in_range. rewrite andb_true_iff, !Z.leb_le. done. Qed.

Lemma interval_pos r : 0 < interval r.
Proof. destruct r; unfold interval, timedelta_weeks, timedelta_days; lia. Qed.

Lemma set_play_time_id a : set_play_time (play_time a) a = a.
Proof. by destruct a. Qed.

Lemma set_play_time_twice t t' a :
  set_play_time t (set_play_time t' a) = set_play_time t a.
Proof. done. Qed.

Lemma reschedule_recurring a r :
  repeat a = Some r →
  reschedule a =
  if in_range (play_time a + interval r)
  then Return (set_play_time (play_time a + interval r) a)
  else Raise (Exc OverflowError "date value out of range").
Proof.
  intros H. unfold reschedule, datetime_add. rewrite H.
  destruct r; unfold interval; by destruct (in_range _).
Qed.

Lemma reschedule_one_shot a : repeat a = None → reschedule a = Return a.
Proof. intros H. unfold reschedule. by rewrite H. Qed.

Lemma reschedule_return a a' :
  reschedule a = Return a' →
  repeat a' = repeat a ∧ play_time a ≤ play_time a' ∧
  a' = set_play_time (play_time a') a.
Proof.
  destruct (repeat a) as [r|] eqn:Hr.
  - rewrite (reschedule_recurring a r Hr).
    destruct (in_range _); [|done]. intros [= <-].
    pose proof (interval_pos r). simpl. repeat split; [done|lia].
  - rewrite (reschedule_one_shot a Hr). intros [= <-].
    rewrite set_play_time_id. repeat split; [done|lia].
Qed.

Lemma reschedule_n_recurring r n : ∀ a,
  repeat a = Some r →
  datetime_min ≤ play_time a →
  play_time a + Z.of_nat n * interval r ≤ datetime_max →
  reschedule_n n a =
  Return (set_play_time (play_time a + Z.of_nat n * interval r) a).
Proof.
  pose proof (interval_pos r) as Hpos.
  induction n as [|n IH]; intros a Hr Hmin Hmax.
  { simpl. by rewrite Z.add_0_r, set_play_time_id. }
  simpl reschedule_n. rewrite (reschedule_recurring a r Hr).
  assert (in_range (play_time a + interval r) = true) as ->.
  { apply in_range_spec. nia. }
  rewrite IH; simpl; [|done|lia|nia].
  rewrite set_play_time_twice. do 2 f_equal. lia.
Qed.

Lemma reschedule_n_one_shot n a : repeat a = None → reschedule_n n a = Return a.
Proof.
  intros H. induction n as [|n IH]; [done|].
  simpl. by rewrite (reschedule_one_shot a H).
Qed.

(** C6 (as amended): for a recurring announcement whose [play_time] plus one
    interval is still a [datetime], [reschedule] moves [play_time] forward by
    exactly that interval, one day for a daily announcement and one week for a
    weekly one, so that [n] calls move it by [n] intervals as long as the
    result is a [datetime].  When [play_time] plus one interval lies beyond
    [datetime.max] the call raises [OverflowError] and changes nothing.  A
    call that returns never moves [play_time] backward and touches no other
    attribute; with [repeat = None] it changes nothing. *)
Theorem reschedule_advances_one_interval (a : Announcement) :
  (∀ r, repeat a = Some r → in_range (play_time a + interval r) = true →
     reschedule a = Return (set_play_time (play_time a + interval r) a)) ∧
  (∀ r, repeat a = Some r → in_range (play_time a + interval r) = false →
     reschedule a = Raise (Exc OverflowError "date value out of range")) ∧
  (repeat a = None → reschedule a = Return a) ∧
  (∀ a', reschedule a = Return a' →
     play_time a ≤ play_time a' ∧ a' = set_play_time (play_time a') a) ∧
  (∀ r (n : nat), repeat a = Some r → datetime_min ≤ play_time a →
     play_time a + Z.of_nat n * interval r ≤ datetime_max →
     reschedule_n n a =
     Return (set_play_time (play_time a + Z.of_nat n * interval r) a)) ∧
  interval Daily = 24 * 60 * 60 * 1000000 ∧
  interval Weekly = 7 * interval Daily.
Proof.
  split; [|split; [|split; [|split; [|split; [|split]]]]].
  - intros r Hr Hin. by rewrite (reschedule_recurring a r Hr), Hin.
  - intros r Hr Hin. by rewrite (reschedule_recurring a r Hr), Hin.
  - apply reschedule_one_shot.
  - intros a' H. by destruct (reschedule_return a a' H) as (_ & ? & ?).
  - intros r n. apply reschedule_n_recurring.
  - reflexivity.
  - reflexivity.
Qed.

Lemma reschedule_advances_one_interval_witness :
  reschedule weekly_until =
    Return (set_play_time (play_time weekly_until + interval Weekly) weekly_until)
  ∧ reschedule_n 3 (plain "Daily" (clock 7 0) (Some Daily) 1) =
    Return (set_play_time (clock 7 0 + 3 * interval Daily)
              (plain "Daily" (clock 7 0) (Some Daily) 1))
  ∧ reschedule (plain "Once" (clock 8 5) None 1) =
    Return (plain "Once" (clock 8 5) None 1).
Proof.
  split; [|split].
  - exact (proj1 (reschedule_advances_one_interval weekly_until)
             Weekly eq_refl eq_refl).
  - refine (proj1 (proj2 (proj2 (proj2 (proj2
              (reschedule_advances_one_interval
                 (plain "Daily" (clock 7 0) (Some Daily) 1))))))
              Daily 3%nat eq_refl _ _); vm_compute; discriminate.
  - exact (proj1 (proj2 (proj2 (reschedule_advances_one_interval
                                  (plain "Once" (clock 8 5) None 1)))) eq_refl).
Defined.

(** C6 as stated fails at the end of the calendar: a daily announcement due
    at noon of 9999-12-31 is a recurring announcement with a [play_time]
    within the range, yet [reschedule] does not advance it; the call raises. *)
Lemma reschedule_range_end_counterexample :
  repeat (heap_last_day 0%nat) = Some Daily ∧
  in_range (play_time (heap_last_day 0%nat)) = true ∧
  reschedule (heap_last_day 0%nat) =
    Raise (Exc OverflowError "date value out of range") ∧
  ∀ a', reschedule (heap_last_day 0%nat) ≠ Return a'.
Proof. repeat split. intros a'. vm_compute. discriminate. Qed.

(** ** Rendering *)






Section Format.
Variable kw : gmap string string.

Lemma get_field_object_name n :
  is_name n = true →
  get_field_object kw n =
  match kw !! n with
  | Some v => Return v
  | None => Raise (Exc KeyError ("'" +:+ n +:+ "'"))
  end.
Proof.
  unfold is_name, get_field_object. intros H.
  apply andb_prop in H as [H Hc]. apply andb_prop in H as [Hne Hd].
  apply negb_true_iff in Hne, Hd. apply String.eqb_neq in Hne.
  rewrite Hd. by destruct (decide (n = EmptyString)).
Qed.

Lemma do_markup_field n : ∀ acc rest,
  name_chars n = true →
  do_markup kw (InField acc) (n +:+ String "}" rest) =
  match get_field_object kw (acc +:+ n) with
  | Return v => emit_str v (do_markup kw InText rest)
  | Raise e => Raises e
  end.
Proof.
  induction n as [|c n IH]; intros acc rest Hn.
  - rewrite append_nil_l, append_nil_r. simpl. done.
  - rewrite append_cons. simpl in Hn. apply andb_prop in Hn as [Hc Hn]. apply andb_prop in Hc as [Hc1 Hc2].
    apply negb_true_iff in Hc1, Hc2. simpl. rewrite Hc1, Hc2.
    rewrite IH by done. by rewrite append_assoc, append_cons, append_nil_l.
Qed.

Lemma do_markup_open c s :
  Ascii.eqb c "{" = false →
  do_markup kw InText (String "{" (String c s)) =
  do_markup kw (InField EmptyString) (String c s).
Proof. intros H. simpl. by rewrite H. Qed.

Lemma do_markup_placeholder n rest :
  is_name n = true →
  do_markup kw InText ("{" +:+ n +:+ String "}" rest) =
  match kw !! n with
  | Some v => emit_str v (do_markup kw InText rest)
  | None => Raises (Exc KeyError ("'" +:+ n +:+ "'"))
  end.
Proof.
  intros Hn. assert (Hn' := Hn). unfold is_name in Hn'.
  apply andb_prop in Hn' as [H Hc]. apply andb_prop in H as [Hne _].
  destruct n as [|c n]; [done|].
  simpl in Hc. apply andb_prop in Hc as [Hc Hcs]. apply andb_prop in Hc as [Hc1 Hc2].
  apply negb_true_iff in Hc1, Hc2.
  assert (Ascii.eqb c "{" = false) as Hb.
  { unfold is_field_syntax in Hc2. apply orb_false_iff in Hc2 as [_ ?]. done. }
  rewrite !append_cons, append_nil_l, do_markup_open by done.
  rewrite <- append_cons.
  rewrite (do_markup_field (String c n) EmptyString rest).
  - rewrite append_nil_l. rewrite get_field_object_name by done.
    by destruct (kw !! String c n).
  - simpl. by rewrite Hc1, Hc2, Hcs.
Qed.

Lemma do_markup_literal c rest :
  do_markup kw InText (part_text (Literal c) +:+ rest) =
  emit c (do_markup kw InText rest).
Proof.
  simpl part_text.
  destruct (Ascii.eqb c "{") eqn:E1.
  { apply Ascii.eqb_eq in E1 as ->. done. }
  destruct (Ascii.eqb c "}") eqn:E2.
  { apply Ascii.eqb_eq in E2 as ->. done. }
  rewrite append_cons, append_nil_l. simpl. by rewrite E1, E2.
Qed.

Lemma do_markup_template parts :
  Forall named parts →
  match substituted kw parts with
  | Some s => do_markup kw InText (template_text parts) = Formatted s
  | None => ∃ e, do_markup kw InText (template_text parts) = Raises e
  end.
Proof.
  induction 1 as [|p parts Hp Hps IH]; [done|].
  destruct p as [c|n].
  - change (template_text (Literal c :: parts))
      with (part_text (Literal c) +:+ template_text parts).
    rewrite do_markup_literal. simpl substituted.
    destruct (substituted kw parts) as [s|]; simpl.
    + by rewrite IH.
    + destruct IH as [e He]. exists e. by rewrite He.
  - change (template_text (Placeholder n :: parts))
      with (("{" +:+ n +:+ "}") +:+ template_text parts).
    rewrite !append_assoc, (append_cons "}"), append_nil_l.
    rewrite do_markup_placeholder by done. simpl substituted.
    destruct (kw !! n) as [v|]; [|eauto].
    destruct (substituted kw parts) as [s|]; simpl.
    + by rewrite IH.
    + destruct IH as [e He]. exists e. by rewrite He.
Qed.










End Format.

Section Rendering.
Variable fmt : string → gmap string string → result string.

(** On a template within bare names the formatter of the interpreter is not
    consulted. *)
Lemma str_format_names (g : string → gmap string string → result string)
    template kwargs :
  do_markup kwargs InText template ≠ NotPlain →
  str_format fmt template kwargs = str_format g template kwargs.
Proof. unfold str_format. by destruct (do_markup kwargs InText template). Qed.


End Rendering.



(** Templates on which the substitution raises: a lone brace, a field that
    is never closed, an empty or numbered field (there are no positional
    arguments), a name without a value. *)
Lemma get_text_malformed_examples :
  Forall (λ t, ∀ fmt kw,
            get_text fmt (Announcement__init__ t (clock 10 0) None 0 1 (Some kw)) = t)
    ["Platform }"; "Platform {"; "Train {train_no"; "Train {}"]
  ∧ (∀ fmt, get_text fmt (Announcement__init__ "Train {0}" (clock 10 0) None 0 1
                            (Some {[ "0" := "12" ]})) = "Train {0}")
  ∧ (∀ fmt, get_text fmt (Announcement__init__ "{train_no} at {platform}"
                            (clock 10 0) None 0 1 (Some {[ "train_no" := "12" ]}))
            = "{train_no} at {platform}")
  ∧ (∀ fmt, get_text fmt (Announcement__init__ "{{{train_no}}}" (clock 10 0) None 0 1
                            (Some {[ "train_no" := "12" ]})) = "{12}").
Proof.
  split; [|split; [|split]].
  - repeat constructor.
  - intros fmt. reflexivity.
  - intros fmt. reflexivity.
  - intros fmt. reflexivity.
Qed.

(** ** The queue manager *)

(** Evaluation of a method on a world given by its fields. *)
Ltac exec_world :=
  lazy [add_announcement interrupt_with_live _try_play_next _play_announcement
    speak thread_exit playback_returns call step with_lock
    load_queue mutate_queue store_current_announcement store_interrupted
    load_object store_object record_access put_queue put_current_announcement
    put_interrupted put_lock put_playing_thread put_heap engine_call
    showMessage record_start get_world exec mbind M_bind mret M_ret
    thread_running is_alive thread_args snd fst
    heap queue current_announcement voices lock playing_thread interrupted
    engine status_bar started accesses].

Ltac exec_world_in H :=
  lazy [add_announcement interrupt_with_live _try_play_next _play_announcement
    speak thread_exit playback_returns call step with_lock
    load_queue mutate_queue store_current_announcement store_interrupted
    load_object store_object record_access put_queue put_current_announcement
    put_interrupted put_lock put_playing_thread put_heap engine_call
    showMessage record_start get_world exec mbind M_bind mret M_ret
    thread_running is_alive thread_args snd fst
    heap queue current_announcement voices lock playing_thread interrupted
    engine status_bar started accesses] in H.

Ltac destruct_world w :=
  destruct w as [?h ?q ?c ?v ?l [[?ta [|]]|] ?i ?e ?s ?st ?ac];
  simpl in *; try discriminate.

Ltac exec_cases :=
  repeat (exec_world;
          match goal with
          | |- context [match py_getitem ?v ?i with _ => _ end] =>
              destruct (py_getitem v i) eqn:?
          | |- context [match repeat ?a with _ => _ end] =>
              destruct (repeat a) eqn:?
          | |- context [match reschedule ?a with _ => _ end] =>
              destruct (reschedule a) eqn:?
          | |- context [match sort_by_key ?k ?l with _ => _ end] =>
              destruct (sort_by_key k l) eqn:?
          | |- context [match ?s with Speaks => _ | _ => _ end] => destruct s
          | |- context [match ?q with [] => _ | _ => _ end] =>
              is_var q; destruct q
          end);
  exec_world.

Lemma sort_by_key_snoc_nonempty {A} (key : A → SortKey) l a :
  ∃ next rest, sort_by_key key (l ++ [a]) = next :: rest.
Proof.
  destruct (sort_by_key key (l ++ [a])) as [|x r] eqn:E; [|eauto].
  pose proof (sort_by_key_perm key (l ++ [a])) as Hp. rewrite E in Hp.
  apply Permutation_nil_l in Hp. by destruct l.
Qed.

Section EngineFacts.
Variable fmt : string → gmap string string → result string.

Lemma try_play_next_running w :
  thread_running (playing_thread w) = true → exec _try_play_next w = w.
Proof. intros H. destruct_world w. exec_world. done. Qed.

Lemma add_announcement_running a w :
  thread_running (playing_thread w) = true →
  let w' := exec (add_announcement fmt a) w in
  heap w' = heap w ∧
  queue w' = sort_by_key (queue_key (heap w)) (queue w ++ [a]) ∧
  current_announcement w' = current_announcement w ∧
  playing_thread w' = playing_thread w ∧
  started w' = started w ∧
  interrupted w' = interrupted w ∧
  engine w' = engine w ∧
  voices w' = voices w.
Proof. intros H. destruct_world w. exec_world. done. Qed.

Lemma add_announcement_idle a w :
  thread_running (playing_thread w) = false →
  let w' := exec (add_announcement fmt a) w in
  ∃ next rest,
    sort_by_key (queue_key (heap w)) (queue w ++ [a]) = next :: rest ∧
    heap w' = heap w ∧
    queue w' = rest ∧
    current_announcement w' = Some next ∧
    playing_thread w' = Some (mkThread next true) ∧
    started w' = started w ++ [next] ∧
    interrupted w' = false ∧
    engine w' = engine w ∧
    voices w' = voices w.
Proof.
  intros H.
  destruct (sort_by_key_snoc_nonempty (queue_key (heap w)) (queue w) a)
    as (next & rest & E).
  exists next, rest. split; [done|].
  destruct_world w; exec_world; rewrite E; exec_world; done.
Qed.

Lemma interrupt_with_live_running a w :
  thread_running (playing_thread w) = true →
  let w' := exec (interrupt_with_live a) w in
  heap w' = heap w ∧
  queue w' = a :: queue w ∧
  current_announcement w' = current_announcement w ∧
  playing_thread w' = playing_thread w ∧
  started w' = started w ∧
  interrupted w' = true ∧
  engine w' = engine w ++ [Stop] ∧
  status_bar w' = status_bar w ++ ["Live announcement started..."].
Proof. intros H. destruct_world w. exec_world. done. Qed.

Lemma interrupt_with_live_idle a w :
  thread_running (playing_thread w) = false →
  let w' := exec (interrupt_with_live a) w in
  heap w' = heap w ∧
  queue w' = queue w ∧
  current_announcement w' = Some a ∧
  playing_thread w' = Some (mkThread a true) ∧
  started w' = started w ++ [a] ∧
  interrupted w' = false ∧
  engine w' = engine w ∧
  status_bar w' = status_bar w ++ ["Live announcement started..."].
Proof. intros H. destruct_world w; exec_world; done. Qed.


Lemma play_announcement_one_shot a sink w :
  repeat (heap w a) = None →
  thread_running (playing_thread w) = true →
  let w' := exec (_play_announcement fmt a sink) w in
  heap w' = heap w ∧
  queue w' = queue w ∧
  current_announcement w' = None ∧
  playing_thread w' = playing_thread w ∧
  started w' = started w ∧
  interrupted w' = interrupted w.
Proof.
  intros Hr H. destruct_world w.
  destruct (py_getitem v (voice_id (h a))) eqn:Ev; destruct sink;
    exec_world; rewrite ?Ev, ?Hr; exec_world; rewrite ?Hr; exec_world; done.
Qed.

Lemma play_announcement_recurring a r a' sink w :
  repeat (heap w a) = Some r →
  reschedule (heap w a) = Return a' →
  thread_running (playing_thread w) = true →
  let w' := exec (_play_announcement fmt a sink) w in
  heap w' = <[a := a']> (heap w) ∧
  queue w' = sort_by_key (queue_key (heap w')) (queue w ++ [a]) ∧
  current_announcement w' = None ∧
  playing_thread w' = playing_thread w ∧
  started w' = started w ∧
  interrupted w' = interrupted w.
Proof.
  intros Hr Hs H. destruct_world w.
  destruct (py_getitem v (voice_id (h a))) eqn:Ev; destruct sink;
    exec_world; rewrite ?Ev, ?Hr; exec_world; rewrite ?Hr, ?Hs; exec_world; done.
Qed.

(** When [reschedule] raises, the exception ends the method inside the
    [finally] block: nothing is put back, [current_announcement] is not
    cleared and no announcement is changed. *)
Lemma play_announcement_overflow a r e sink w :
  repeat (heap w a) = Some r →
  reschedule (heap w a) = Raise e →
  (_play_announcement fmt a sink w).1 = Raise e ∧
  let w' := exec (_play_announcement fmt a sink) w in
  heap w' = heap w ∧
  queue w' = queue w ∧
  current_announcement w' = current_announcement w ∧
  playing_thread w' = playing_thread w ∧
  started w' = started w ∧
  interrupted w' = interrupted w ∧
  lock w' = lock w.
Proof.
  intros Hr Hs. destruct w as [h q c v l t i en s st ac]. simpl in Hr, Hs.
  destruct (py_getitem v (voice_id (h a))) eqn:Ev; destruct sink;
    exec_world; rewrite ?Ev, ?Hr; exec_world; rewrite ?Hr, ?Hs; exec_world; done.
Qed.


Lemma run_cons ev evs w : run fmt (ev :: evs) w = run fmt evs (exec (step fmt ev) w).
Proof. done. Qed.

Lemma run_app evs1 evs2 w : run fmt (evs1 ++ evs2) w = run fmt evs2 (run fmt evs1 w).
Proof. unfold run. apply foldl_app. Qed.



(** C2 (as amended): [interrupt_with_live] puts its argument at position
    zero of the pending list without comparing priorities.  With no playback
    in flight the same call pops and starts it; with one in flight it sets the
    interrupted flag, tells the engine to stop, and leaves the argument at the
    head of the pending list, where the next [add_announcement] sorts it
    together with the rest. *)
Theorem interrupt_inserts_at_front a w :
  let w' := exec (interrupt_with_live a) w in
  if thread_running (playing_thread w)
  then queue w' = a :: queue w ∧
       started w' = started w ∧
       current_announcement w' = current_announcement w ∧
       interrupted w' = true ∧
       engine w' = engine w ++ [Stop] ∧
       (∀ b, queue (exec (add_announcement fmt b) w') =
             sort_by_key (queue_key (heap w)) (a :: queue w ++ [b]))
  else queue w' = queue w ∧
       started w' = started w ++ [a] ∧
       current_announcement w' = Some a ∧
       playing_thread w' = Some (mkThread a true).
Proof.
  cbv zeta. destruct (thread_running (playing_thread w)) eqn:H.
  - destruct (interrupt_with_live_running a w H)
      as (Hh & Hq & Hc & Ht & Hs & Hi & He & _).
    repeat split; try done. intros b.
    destruct (add_announcement_running b (exec (interrupt_with_live a) w))
      as (_ & Hq' & _).
    { by rewrite Ht. }
    by rewrite Hq', Hh, Hq.
  - destruct (interrupt_with_live_idle a w H) as (? & ? & ? & ? & ? & ? & ? & ?). done.
Qed.

(** C3 (as amended): when the playback of a recurring announcement returns,
    however it ended, and the announcement can be rescheduled, its
    [play_time] is advanced by one interval and it is put back in the pending
    list; [repeat_end] is neither read nor changed, so this holds whatever its
    value.  The one recurring announcement that is not put back is the one
    whose next [play_time] lies beyond [datetime.max]: [reschedule] raises
    [OverflowError] inside the completion handling, which ends there, with
    the announcement unchanged, the pending list as it was and
    [current_announcement] not cleared. *)
Theorem recurring_requeued_whatever_repeat_end a r sink w :
  repeat (heap w a) = Some r →
  thread_running (playing_thread w) = true →
  let w' := exec (_play_announcement fmt a sink) w in
  let t' := play_time (heap w a) + interval r in
  if in_range t'
  then heap w' a = set_play_time t' (heap w a) ∧
       play_time (heap w' a) = t' ∧
       repeat_end (heap w' a) = repeat_end (heap w a) ∧
       queue w' = sort_by_key (queue_key (heap w')) (queue w ++ [a]) ∧
       a ∈ queue w' ∧
       current_announcement w' = None
  else (_play_announcement fmt a sink w).1 =
         Raise (Exc OverflowError "date value out of range") ∧
       heap w' = heap w ∧
       queue w' = queue w ∧
       current_announcement w' = current_announcement w.
Proof.
  intros Hr H. cbv zeta.
  pose proof (reschedule_recurring (heap w a) r Hr) as Hs.
  destruct (in_range (play_time (heap w a) + interval r)).
  - destruct (play_announcement_recurring a r _ sink w Hr Hs H)
      as (Hh & Hq & Hc & _).
    rewrite Hq, Hc, Hh, fn_lookup_insert. repeat split.
    rewrite <- Hh. rewrite (sort_by_key_perm _ _). apply elem_of_app. right. by left.
  - destruct (play_announcement_overflow a r _ sink w Hr Hs)
      as (Hres & Hh & Hq & Hc & _).
    by rewrite Hres, Hh, Hq, Hc.
Qed.

(** C7: when the playback of a one-shot announcement returns, whether it
    ran to the end, was stopped or raised, the completion handler adds nothing
    to the pending list: the list is as it was, and so does not contain the
    announcement unless it already did. *)
Theorem one_shot_never_requeued a sink w :
  repeat (heap w a) = None →
  thread_running (playing_thread w) = true →
  let w' := exec (_play_announcement fmt a sink) w in
  queue w' = queue w ∧
  (a ∉ queue w → a ∉ queue w') ∧
  heap w' = heap w ∧
  current_announcement w' = None ∧
  started w' = started w.
Proof.
  intros Hr H. cbv zeta.
  destruct (play_announcement_one_shot a sink w Hr H) as (Hh & Hq & Hc & _ & Hs & _).
  rewrite Hq, Hh, Hc, Hs. done.
Qed.

End EngineFacts.

(** ** Invariants of the steps *)

Section Invariants.
Variable fmt : string → gmap string string → result string.

(** No step returns with the lock held, so the lock is free whenever a
    method takes it. *)
Lemma lock_free_after ev w :
  lock w = false → lock (exec (step fmt ev) w) = false.
Proof.
  intros H. destruct w as [h q c v l [[ta [|]]|] i e s st ac]; simpl in H; subst;
    destruct ev as [[a|a]|sink]; exec_cases; done.
Qed.

(** The return of a playback never starts the next one, and it pops nothing:
    it can only add the announcement it has just played. *)
Lemma playback_returns_starts_nothing sink w :
  let w' := exec (playback_returns fmt sink) w in
  started w' = started w ∧
  (current_announcement w' = None ∨
   current_announcement w' = current_announcement w) ∧
  thread_running (playing_thread w') = false ∧
  (queue w' = queue w ∨
   ∃ a, playing_thread w = Some (mkThread a true) ∧
        queue w' = sort_by_key (queue_key (heap w')) (queue w ++ [a])).
Proof.
  destruct w as [h q c v l [[ta [|]]|] i e s st ac];
    exec_cases; repeat split; eauto.
Qed.

(** Nothing reads the [interrupted] flag. *)
Lemma interrupted_only_stored_step ev w :
  interrupted_only_stored w → interrupted_only_stored (exec (step fmt ev) w).
Proof.
  unfold interrupted_only_stored. intros H.
  destruct w as [h q c v l [[ta [|]]|] i e s st ac]; simpl in H;
    destruct ev as [[a|a]|sink]; exec_cases;
    rewrite ?Forall_app; repeat split; try done;
    repeat constructor; simpl; congruence.
Qed.

Lemma interrupted_only_stored_run evs heap0 vs :
  interrupted_only_stored (run fmt evs (AnnouncementQueue__init__ heap0 vs)).
Proof.
  assert (∀ w, interrupted_only_stored w → interrupted_only_stored (run fmt evs w))
    as H; [|apply H; constructor].
  induction evs as [|ev evs IH]; intros w Hw; [done|].
  rewrite run_cons. by apply IH, interrupted_only_stored_step.
Qed.

(** The formatter decides only the texts shown and spoken: the pending list,
    the playback thread, the objects and the accesses are the same under any
    two formatters. *)
Lemma step_formatter_independent (g : string → gmap string string → result string)
    ev w1 w2 :
  same_schedule w1 w2 →
  same_schedule (exec (step fmt ev) w1) (exec (step g ev) w2).
Proof.
  unfold same_schedule.
  destruct w1 as [h q c v l t i e s st ac], w2 as [h2 q2 c2 v2 l2 t2 i2 e2 s2 st2 ac2].
  simpl. intros (-> & -> & -> & -> & -> & -> & -> & -> & ->).
  destruct t2 as [[ta [|]]|]; destruct ev as [[a|a]|sink]; exec_cases; done.
Qed.

Lemma run_formatter_independent (g : string → gmap string string → result string)
    evs : ∀ w1 w2,
  same_schedule w1 w2 → same_schedule (run fmt evs w1) (run g evs w2).
Proof.
  induction evs as [|ev evs IH]; intros w1 w2 H; [done|].
  rewrite !run_cons. by apply IH, step_formatter_independent.
Qed.

End Invariants.

(** ** The amended claims at concrete inputs, and where the original ones fail *)

Lemma recurring_requeued_whatever_repeat_end_witness :
  heap (exec (_play_announcement names_only 0%nat Speaks)
          (playing_first heap_weekly one_voice)) 0%nat =
    set_play_time (clock 8 0 + interval Weekly) weekly_until ∧
  queue (exec (_play_announcement names_only 0%nat Speaks)
           (playing_first heap_weekly one_voice)) = [0%nat] ∧
  (_play_announcement names_only 0%nat Speaks
     (playing_first heap_last_day one_voice)).1 =
    Raise (Exc OverflowError "date value out of range") ∧
  queue (exec (_play_announcement names_only 0%nat Speaks)
           (playing_first heap_last_day one_voice)) = [] ∧
  current_announcement (exec (_play_announcement names_only 0%nat Speaks)
                          (playing_first heap_last_day one_voice)) = Some 0%nat.
Proof.
  pose proof (recurring_requeued_whatever_repeat_end names_only 0%nat Weekly Speaks
                (playing_first heap_weekly one_voice) eq_refl eq_refl) as H1.
  pose proof (recurring_requeued_whatever_repeat_end names_only 0%nat Daily Speaks
                (playing_first heap_last_day one_voice) eq_refl eq_refl) as H2.
  cbv zeta in H1, H2.
  change (in_range _) with true in H1. change (in_range _) with false in H2.
  destruct H1 as (Hh & _ & _ & Hq & _). destruct H2 as (Hr & _ & Hq2 & Hc2).
  split; [exact Hh|]. split; [rewrite Hq; reflexivity|].
  split; [exact Hr|]. split; [rewrite Hq2; reflexivity|].
  rewrite Hc2. reflexivity.
Defined.

Lemma one_shot_never_requeued_witness :
  let w := run names_only (adds [0; 1]%nat)
             (AnnouncementQueue__init__ heap_abc one_voice) in
  let w' := exec (_play_announcement names_only 0%nat
                    (RunAndWaitRaises device_unavailable)) w in
  queue w' = queue w ∧
  (0%nat ∉ queue w → 0%nat ∉ queue w') ∧
  heap w' = heap w ∧
  current_announcement w' = None ∧
  started w' = started w.
Proof.
  exact (one_shot_never_requeued names_only 0%nat
           (RunAndWaitRaises device_unavailable)
           (run names_only (adds [0; 1]%nat)
              (AnnouncementQueue__init__ heap_abc one_voice))
           eq_refl eq_refl).
Defined.


(** C2 as stated fails on the specification's own example: X (priority 9) is
    pending and Y is playing when Z (priority 1) interrupts.  Z is put at the
    head of the pending list, but the next [add_announcement] sorts it behind
    X; when Y returns nothing is started, and the call after that starts X. *)
Lemma interrupt_plays_next_counterexample :
  let w1 := run names_only
              [Caller (CallAdd 0%nat); Caller (CallAdd 1%nat);
               Caller (CallInterrupt 2%nat)]
              (AnnouncementQueue__init__ heap_yxzw one_voice) in
  let w2 := run names_only [Caller (CallAdd 3%nat)] w1 in
  let w3 := run names_only [PlaybackReturns Speaks] w2 in
  let w4 := run names_only [Caller (CallAdd 4%nat)] w3 in
  (queue w1 = [2; 1]%nat ∧ started w1 = [0%nat]) ∧
  (queue w2 = [1; 2; 3]%nat ∧ started w2 = [0%nat]) ∧
  (queue w3 = [1; 2; 3]%nat ∧ started w3 = [0%nat]) ∧
  (queue w4 = [2; 3; 4]%nat ∧ started w4 = [0; 1]%nat).
Proof. vm_compute. done. Qed.

(** C3 as stated fails: a weekly announcement whose [repeat_end] lies two
    days after its [play_time] is put back in the pending list when its
    playback returns, one week later than [repeat_end] allows. *)
Lemma repeat_end_counterexample :
  let w := run names_only [Caller (CallAdd 0%nat); PlaybackReturns Speaks]
             (AnnouncementQueue__init__ heap_weekly one_voice) in
  queue w = [0%nat] ∧
  play_time (heap w 0%nat) = clock 8 0 + timedelta_weeks 1 ∧
  repeat_end (heap w 0%nat) = Some (clock 8 0 + timedelta_days 2) ∧
  clock 8 0 + timedelta_days 2 < play_time (heap w 0%nat).
Proof. vm_compute. done. Qed.

(** ** The playback thread's return *)

Section Completion.
Variable fmt : string → gmap string string → result string.

Lemma playback_returns_alive a sink w :
  playing_thread w = Some (mkThread a true) →
  exec (playback_returns fmt sink) w =
  exec thread_exit (exec (_play_announcement fmt a sink) w).
Proof.
  intros H. unfold playback_returns, exec, mbind, M_bind, get_world at 1.
  rewrite H. simpl. by destruct (_play_announcement fmt a sink w).
Qed.

Lemma thread_exit_fields w :
  let w' := exec thread_exit w in
  heap w' = heap w ∧ queue w' = queue w ∧
  current_announcement w' = current_announcement w ∧
  started w' = started w ∧ status_bar w' = status_bar w ∧
  accesses w' = accesses w ∧ lock w' = lock w ∧
  playing_thread w' =
    (λ th, mkThread (thread_args th) false) <$> playing_thread w.
Proof.
  destruct w as [h q c v l [[ta al]|] i e s st ac]; exec_world; done.
Qed.

Lemma play_announcement_reports a sink e w :
  thread_running (playing_thread w) = true →
  (speak fmt (heap w a) sink w).1 = Some e →
  ("Error playing announcement: " +:+ exc_str e)
    ∈ status_bar (exec (_play_announcement fmt a sink) w).
Proof.
  intros H He. destruct_world w.
  destruct (py_getitem v (voice_id (h a))) as [voice|ex'] eqn:Ev;
    destruct sink as [|ex|ex];
    exec_world_in He; rewrite Ev in He; exec_world_in He; simplify_eq;
    destruct (repeat (h a)) eqn:Hr; destruct (reschedule (h a)) eqn:Hs;
    exec_world; rewrite ?Ev, ?Hr; exec_world; rewrite ?Hr, ?Hs; exec_world;
    rewrite !elem_of_app, !list_elem_of_singleton; tauto.
Qed.

(** C8: what the code does when a playback raises, be it the voice lookup,
    [engine.say] or [engine.runAndWait].  The error is reported on the status
    bar, the completion handling runs (a recurring announcement is rescheduled
    and re-enqueued, [current_announcement] is cleared) and the thread ends;
    but no pending announcement is started, because the handler calls
    [_try_play_next] on the playback thread itself, which is still alive.  The
    queue stays serviceable: the next [add_announcement] starts the head of
    the pending list.  Should [reschedule] raise, at the end of the calendar,
    the handling ends there: the announcement is not re-enqueued and
    [current_announcement] stays as it was; the rest is as before. *)
Theorem playback_error_next_not_started a sink e w :
  playing_thread w = Some (mkThread a true) →
  (speak fmt (heap w a) sink w).1 = Some e →
  let w' := exec (playback_returns fmt sink) w in
  ("Error playing announcement: " +:+ exc_str e) ∈ status_bar w' ∧
  current_announcement w' = match reschedule (heap w a) with
                            | Return _ => None
                            | Raise _ => current_announcement w
                            end ∧
  queue w' = match repeat (heap w a), reschedule (heap w a) with
             | Some _, Return _ =>
                 sort_by_key (queue_key (heap w')) (queue w ++ [a])
             | _, _ => queue w
             end ∧
  started w' = started w ∧
  playing_thread w' = Some (mkThread a false) ∧
  (∀ b, ∃ next rest,
     sort_by_key (queue_key (heap w')) (queue w' ++ [b]) = next :: rest ∧
     started (exec (add_announcement fmt b) w') = started w ++ [next] ∧
     queue (exec (add_announcement fmt b) w') = rest).
Proof.
  intros Ht He. cbv zeta. rewrite (playback_returns_alive a) by done.
  assert (Hrun : thread_running (playing_thread w) = true) by by rewrite Ht.
  pose proof (play_announcement_reports a sink e w Hrun He) as Hst.
  set (w1 := exec (_play_announcement fmt a sink) w) in *.
  destruct (thread_exit_fields w1) as (Hh & Hq & Hc & Hs & Hsb & _ & _ & Hpt).
  assert (started w1 = started w ∧
          playing_thread w1 = playing_thread w ∧
          current_announcement w1 = match reschedule (heap w a) with
                                    | Return _ => None
                                    | Raise _ => current_announcement w
                                    end ∧
          queue w1 = match repeat (heap w a), reschedule (heap w a) with
                     | Some _, Return _ =>
                         sort_by_key (queue_key (heap w1)) (queue w ++ [a])
                     | _, _ => queue w
                     end) as (Hs1 & Hpt1 & Hc1 & Hq1).
  { destruct (repeat (heap w a)) as [r|] eqn:Hr.
    - destruct (reschedule (heap w a)) as [a'|ex] eqn:Hres.
      + destruct (play_announcement_recurring fmt a r a' sink w Hr Hres Hrun)
          as (_ & ? & ? & ? & ? & _). done.
      + destruct (play_announcement_overflow fmt a r ex sink w Hr Hres)
          as (_ & _ & ? & ? & ? & ? & _). done.
    - rewrite (reschedule_one_shot _ Hr).
      destruct (play_announcement_one_shot fmt a sink w Hr Hrun)
        as (_ & ? & ? & ? & ? & _). done. }
  rewrite Hsb, Hc, Hq, Hs, Hpt, Hh, Hc1, Hs1, Hpt1, Ht. repeat split; try done.
  intros b.
  destruct (add_announcement_idle fmt b (exec thread_exit w1))
    as (next & rest & E & _ & Hq' & _ & _ & Hs' & _).
  { by rewrite Hpt, Hpt1, Ht. }
  exists next, rest. rewrite Hh, Hq in E. rewrite Hs, Hs1 in Hs'. done.
Qed.

(** C10: what the code does with its lock.  [add_announcement] holds
    [self.lock] only while it appends and sorts; the call to [_try_play_next]
    that follows reads and pops the pending list and writes
    [current_announcement] and [interrupted] with the lock released.  The
    completion handler clears [current_announcement] without taking the lock
    either. *)
Theorem shared_state_accessed_without_lock :
  (∀ a w, thread_running (playing_thread w) = false →
     accesses (exec (add_announcement fmt a) w) =
     accesses w ++
       [mkAccess Fqueue Store true; mkAccess Fqueue Store true;
        mkAccess Fqueue Load false; mkAccess Fqueue Store false;
        mkAccess Fcurrent_announcement Store false;
        mkAccess Finterrupted Store false]) ∧
  (∀ a sink w, thread_running (playing_thread w) = true →
     repeat (heap w a) = None → lock w = false →
     accesses (exec (_play_announcement fmt a sink) w) =
     accesses w ++ [mkAccess Fcurrent_announcement Store false]).
Proof.
  split.
  - intros a w H.
    destruct (sort_by_key_snoc_nonempty (queue_key (heap w)) (queue w) a)
      as (next & rest & E).
    destruct_world w; exec_world; rewrite E; exec_world;
      by rewrite <- !app_assoc.
  - intros a sink w H Hr Hl. destruct_world w. subst.
    destruct (py_getitem v (voice_id (h a))) eqn:Ev; destruct sink;
      exec_world; rewrite ?Ev, ?Hr; exec_world; rewrite ?Hr; exec_world; done.
Qed.

End Completion.

Lemma playback_error_next_not_started_witness :
  let w := run names_only (adds [0; 1]%nat)
             (AnnouncementQueue__init__ heap_abc one_voice) in
  let w' := exec (playback_returns names_only
                    (RunAndWaitRaises device_unavailable)) w in
  "Error playing announcement: device unavailable" ∈ status_bar w' ∧
  current_announcement w' = None ∧
  queue w' = [1%nat] ∧
  started w' = [0%nat] ∧
  playing_thread w' = Some (mkThread 0%nat false) ∧
  (∀ b, ∃ next rest,
     sort_by_key (queue_key (heap w')) (queue w' ++ [b]) = next :: rest ∧
     started (exec (add_announcement names_only b) w') = [0%nat] ++ [next] ∧
     queue (exec (add_announcement names_only b) w') = rest).
Proof.
  exact (playback_error_next_not_started names_only 0%nat
           (RunAndWaitRaises device_unavailable) device_unavailable
           (run names_only (adds [0; 1]%nat)
              (AnnouncementQueue__init__ heap_abc one_voice))
           eq_refl eq_refl).
Defined.

Lemma shared_state_accessed_without_lock_witness :
  accesses (exec (add_announcement names_only 0%nat)
              (AnnouncementQueue__init__ heap_abc one_voice)) =
  [mkAccess Fqueue Store true; mkAccess Fqueue Store true;
   mkAccess Fqueue Load false; mkAccess Fqueue Store false;
   mkAccess Fcurrent_announcement Store false;
   mkAccess Finterrupted Store false].
Proof.
  exact (proj1 (shared_state_accessed_without_lock names_only) 0%nat
           (AnnouncementQueue__init__ heap_abc one_voice) eq_refl).
Defined.

(** ** The due-checker *)

Lemma py_remove_lookup {A} `{EqDecision A} (l : list A) i x :
  l !! i = Some x →
  ∃ l', py_remove x l = Return l' ∧ length l = S (length l').
Proof.
  revert i. induction l as [|y l IH]; intros i Hi; [done|].
  simpl. destruct (decide (x = y)) as [->|Hne]; [eauto|].
  destruct i as [|i]; [simpl in Hi; congruence|].
  destruct (IH i Hi) as (l' & -> & Hlen). exists (y :: l'). simpl. by rewrite Hlen.
Qed.

Section DueChecker.
Variable fmt : string → gmap string string → result string.

(** The loop of [check_schedules] ends because the list runs out, not the
    fuel: any larger bound gives the same result. *)
Lemma check_loop_step now fuel i watch w ann :
  watch !! i = Some ann →
  check_loop fmt (S fuel) now i watch w =
  if is_due (heap w ann) now then
    let w1 := exec (add_announcement fmt ann) w in
    match repeat (heap w1 ann) with
    | Some _ => check_loop fmt fuel now (S i) watch w1
    | None =>
        match py_remove ann watch with
        | Return watch' => check_loop fmt fuel now (S i) watch' w1
        | Raise e => (Raise e, w1)
        end
    end
  else check_loop fmt fuel now (S i) watch w.
Proof.
  intros Hi. simpl. rewrite Hi.
  change ((load_object ann ≫= _) w) with
    ((λ a : Announcement,
        if is_due a now
        then add_announcement fmt ann;;
             a' ← load_object ann;
             match repeat a' with
             | Some _ => check_loop fmt fuel now (S i) watch
             | None =>
                 match py_remove ann watch with
                 | Return watch' => check_loop fmt fuel now (S i) watch'
                 | Raise e => mret (Raise e)
                 end
             end
        else check_loop fmt fuel now (S i) watch) (heap w ann) w).
  cbv beta. destruct (is_due (heap w ann) now); [|done].
  unfold exec. cbv zeta.
  change ((add_announcement fmt ann ≫= ?f) w)
    with (let '(a, w') := add_announcement fmt ann w in f a w').
  destruct (add_announcement fmt ann w) as [u w1]. simpl snd.
  change ((load_object ann ≫= ?f) w1) with (f (heap w1 ann) w1). cbv beta.
  destruct (repeat (heap w1 ann)); [done|].
  by destruct (py_remove ann watch).
Qed.

Lemma check_loop_fuel now fuel : ∀ fuel' i watch w,
  (length watch ≤ i + fuel)%nat → (fuel ≤ fuel')%nat →
  check_loop fmt fuel now i watch w = check_loop fmt fuel' now i watch w.
Proof.
  induction fuel as [|fuel IH]; intros fuel' i watch w Hlen Hle.
  - destruct fuel' as [|fuel']; [done|]. simpl.
    rewrite (lookup_ge_None_2 watch i) by lia. done.
  - destruct fuel' as [|fuel']; [lia|].
    destruct (watch !! i) as [ann|] eqn:Hi; [|by simpl; rewrite Hi].
    rewrite !(check_loop_step _ _ _ _ _ ann) by done.
    destruct (is_due (heap w ann) now); [|apply IH; lia].
    cbv zeta. destruct (repeat _); [apply IH; lia|].
    destruct (py_remove_lookup watch i ann Hi) as (watch' & -> & Hl).
    apply IH; lia.
Qed.

Lemma check_schedules_fuel now watch w fuel :
  (length watch ≤ fuel)%nat →
  check_schedules fmt now watch w = check_loop fmt fuel now 0 watch w.
Proof. intros H. unfold check_schedules. apply check_loop_fuel; lia. Qed.

Lemma add_announcement_fresh a heap0 vs :
  exec (add_announcement fmt a) (AnnouncementQueue__init__ heap0 vs) =
  {| heap := heap0; queue := []; current_announcement := Some a;
     voices := vs; lock := false;
     playing_thread := Some (mkThread a true); interrupted := false;
     engine := [];
     status_bar := ["Announcement queued: " +:+ get_text fmt (heap0 a)];
     started := [a];
     accesses :=
       [mkAccess Fqueue Store true; mkAccess Fqueue Store true;
        mkAccess Fqueue Load false; mkAccess Fqueue Store false;
        mkAccess Fcurrent_announcement Store false;
        mkAccess Finterrupted Store false] |}.
Proof.
  unfold AnnouncementQueue__init__. exec_world.
  change (sort_by_key (queue_key heap0) ([] ++ [a])) with [a].
  exec_world. reflexivity.
Qed.

(** C9: what the code does on a tick with two one-shot announcements that
    are both due.  The first is enqueued and removed from the watch list; the
    removal shifts the second into the slot the loop has just left, so the
    loop ends without looking at it: it is not enqueued and stays in the watch
    list. *)
Theorem check_schedules_skips_after_removal heap0 vs now a b :
  a ≠ b →
  is_due (heap0 a) now = true → repeat (heap0 a) = None →
  is_due (heap0 b) now = true → repeat (heap0 b) = None →
  let out := check_schedules fmt now [a; b] (AnnouncementQueue__init__ heap0 vs) in
  out.1 = Return [b] ∧
  started out.2 = [a] ∧
  queue out.2 = [] ∧
  current_announcement out.2 = Some a ∧
  status_bar out.2 = ["Announcement queued: " +:+ get_text fmt (heap0 a)].
Proof.
  intros Hab Hda Hra Hdb Hrb. cbv zeta. unfold check_schedules.
  change (length [a; b]) with 2%nat.
  rewrite (check_loop_step _ _ _ _ _ a) by done.
  change (heap (AnnouncementQueue__init__ heap0 vs) a) with (heap0 a).
  rewrite Hda. cbv zeta. rewrite add_announcement_fresh.
  cbn [heap]. rewrite Hra.
  assert (py_remove a [a; b] = Return [b]) as ->.
  { simpl. by destruct (decide (a = a)). }
  assert (∀ w, check_loop fmt 1 now 1 [b] w = (Return [b], w)) as -> by done.
  done.
Qed.

End DueChecker.

Lemma check_schedules_skips_after_removal_witness :
  let out := check_schedules names_only (clock 10 30) [0; 1]%nat
               (AnnouncementQueue__init__ heap_abc one_voice) in
  out.1 = Return [1%nat] ∧
  started out.2 = [0%nat] ∧
  queue out.2 = [] ∧
  current_announcement out.2 = Some 0%nat ∧
  status_bar out.2 = ["Announcement queued: A"].
Proof.
  apply (check_schedules_skips_after_removal names_only heap_abc one_voice
           (clock 10 30) 0%nat 1%nat); [discriminate | reflexivity ..].
Defined.

(** With a third due announcement behind the two, that one is handled and the
    second is still skipped. *)
Lemma check_schedules_three_due :
  let now := clock 10 30 in
  let out := check_schedules names_only now [0; 1; 2]%nat
               (AnnouncementQueue__init__ heap_abc one_voice) in
  (is_due (heap_abc 0%nat) now = true ∧ repeat (heap_abc 0%nat) = None) ∧
  (is_due (heap_abc 1%nat) now = true ∧ repeat (heap_abc 1%nat) = None) ∧
  (is_due (heap_abc 2%nat) now = true ∧ repeat (heap_abc 2%nat) = None) ∧
  out.1 = Return [1%nat] ∧
  started out.2 = [0%nat] ∧
  queue out.2 = [2%nat] ∧
  status_bar out.2 = ["Announcement queued: A"; "Announcement queued: C"].
Proof. vm_compute. done. Qed.

(** ** The rebound classes *)

(** C5: the queue class bound when the program runs is not equivalent to the
    engine.  Its [add_announcement] appends at the end of the list (no sort)
    and its [interrupt_with_live] leaves the list as it is and only shows a
    message; neither starts a playback, of which the class has no notion.  So
    already after one [add_announcement] on fresh queues the contents differ
    (the engine has started the announcement, the other queue holds it), and
    after three the engine holds the pending ones sorted while the other queue
    holds all three in call order. *)
Theorem rebound_queue_not_equivalent :
  (∀ a w, Rebound.queue (Rebound.add_announcement a w) = Rebound.queue w ++ [a]) ∧
  (∀ a w, Rebound.queue (Rebound.interrupt_with_live a w) = Rebound.queue w ∧
          Rebound.status_bar (Rebound.interrupt_with_live a w) =
            Rebound.status_bar w ++ ["Live: " +:+ Rebound.text (Rebound.heap w a)]) ∧
  (∀ fmt h h' vs a,
     queue (run fmt [Caller (CallAdd a)] (AnnouncementQueue__init__ h vs)) = [] ∧
     Rebound.queue (Rebound.run [CallAdd a] (Rebound.AnnouncementQueue__init__ h' vs))
       = [a]) ∧
  (queue (run names_only (adds [0; 1; 2]%nat)
            (AnnouncementQueue__init__ heap_abc one_voice)) = [2; 1]%nat ∧
   Rebound.queue (Rebound.run (CallAdd <$> [0; 1; 2]%nat)
                    (Rebound.AnnouncementQueue__init__ rebound_heap one_voice))
     = [0; 1; 2]%nat) ∧
  (∃ cs : list Call,
     queue (run names_only (Caller <$> cs)
              (AnnouncementQueue__init__ heap_abc one_voice)) ≠
     Rebound.queue (Rebound.run cs
                      (Rebound.AnnouncementQueue__init__ rebound_heap one_voice))).
Proof.
  split; [done|]. split; [done|]. split; [|split].
  - intros fmt h h' vs a. split; [|done].
    destruct (add_announcement_idle fmt a (AnnouncementQueue__init__ h vs) eq_refl)
      as (next & r & E & _ & Hq & _).
    change (a :: [] = next :: r) in E. injection E as <- <-. exact Hq.
  - vm_compute. done.
  - exists [CallAdd 0%nat]. vm_compute. discriminate.
Qed.

(** * Further properties *)

(** ** Rendering *)

Lemma do_markup_no_braces kw s :
  no_braces s = true → do_markup kw InText s = Formatted s.
Proof.
  unfold no_braces. induction s as [|c s IH]; [done|]. intros H. simpl in H.
  apply andb_prop in H as [H Hs]. apply andb_prop in H as [H1 H2].
  apply negb_true_iff in H1, H2. simpl. rewrite H1, H2, (IH Hs). done.
Qed.

Lemma substituted_insert_unused kw k v parts :
  Placeholder k ∉ parts →
  substituted (<[k:=v]> kw) parts = substituted kw parts.
Proof.
  induction parts as [|p parts IH]; [done|]. intros H.
  apply not_elem_of_cons in H as [Hp Hps].
  destruct p as [c|n]; simpl.
  - by rewrite IH.
  - rewrite lookup_insert_ne by congruence. by rewrite IH.
Qed.

Section RenderingFacts.
Variable fmt : string → gmap string string → result string.

(** X1: a template without braces is announced as it is written, whatever the
    variables are. *)
Theorem get_text_without_braces self :
  no_braces (text_template self) = true →
  get_text fmt self = text_template self.
Proof.
  intros H. unfold get_text, str_format. by rewrite do_markup_no_braces.
Qed.

(** X2: for a template of literal text and named placeholders, a variable
    that the template does not mention changes nothing in the rendered text. *)
Theorem get_text_ignores_unused_variables parts pt r vid p kw k v :
  Forall named parts → Placeholder k ∉ parts →
  get_text fmt (Announcement__init__ (template_text parts) pt r vid p
                  (Some (<[k:=v]> kw))) =
  get_text fmt (Announcement__init__ (template_text parts) pt r vid p (Some kw)).
Proof.
  intros Hn Hk. unfold get_text, str_format. simpl.
  pose proof (do_markup_template (<[k:=v]> kw) parts Hn) as H1.
  pose proof (do_markup_template kw parts Hn) as H2.
  rewrite substituted_insert_unused in H1 by done.
  destruct (substituted kw parts) as [s|].
  - by rewrite H1, H2.
  - destruct H1 as [e1 ->], H2 as [e2 ->]. done.
Qed.

End RenderingFacts.

Lemma get_text_without_braces_witness :
  get_text names_only (heap_abc 1%nat) = "B".
Proof. exact (get_text_without_braces names_only (heap_abc 1%nat) eq_refl). Defined.

Lemma get_text_ignores_unused_variables_witness :
  get_text names_only
    (Announcement__init__
       (template_text [Literal "T"; Literal " "; Placeholder "train_no"])
       (clock 10 0) None 0 1 (Some (<["crew" := "7"]> {[ "train_no" := "123" ]}))) =
  get_text names_only
    (Announcement__init__
       (template_text [Literal "T"; Literal " "; Placeholder "train_no"])
       (clock 10 0) None 0 1 (Some {[ "train_no" := "123" ]})).
Proof.
  apply get_text_ignores_unused_variables.
  - repeat constructor.
  - rewrite !not_elem_of_cons. repeat split; try discriminate.
    apply not_elem_of_nil.
Defined.

(** ** Due times *)

Lemma reschedule_n_overflow r n : ∀ a,
  repeat a = Some r →
  play_time a ≤ datetime_max →
  datetime_max < play_time a + Z.of_nat n * interval r →
  reschedule_n n a = Raise (Exc OverflowError "date value out of range").
Proof.
  pose proof (interval_pos r) as Hpos.
  induction n as [|n IH]; intros a Hr Hmax Hover; [lia|].
  simpl reschedule_n. rewrite (reschedule_recurring a r Hr).
  destruct (in_range (play_time a + interval r)) eqn:Hin; [|done].
  apply in_range_spec in Hin. apply IH; simpl; [done|lia|lia].
Qed.

(** X3: an announcement that is due stays due as time passes.  Calls of
    [reschedule] leave a one-shot announcement as it is.  A recurring one,
    as long as [n] intervals after its [play_time] is still a [datetime], is
    due after [n] calls exactly when the clock has reached that time; so when
    the clock is more than one interval before [datetime.max], rescheduling
    often enough makes it not due.  Once [n] intervals lead beyond
    [datetime.max], [n] calls in a row end in [OverflowError]. *)
Theorem is_due_after_reschedules (a : Announcement) (now : datetime) :
  (∀ now', is_due a now = true → now ≤ now' → is_due a now' = true) ∧
  (repeat a = None → ∀ n, reschedule_n n a = Return a) ∧
  (∀ r n, repeat a = Some r → datetime_min ≤ play_time a →
     play_time a + Z.of_nat n * interval r ≤ datetime_max →
     ∃ a', reschedule_n n a = Return a' ∧
           (is_due a' now = true ↔ play_time a + Z.of_nat n * interval r ≤ now)) ∧
  (∀ r, repeat a = Some r → datetime_min ≤ play_time a ≤ datetime_max →
     now + interval r ≤ datetime_max →
     ∃ n a', reschedule_n n a = Return a' ∧ is_due a' now = false) ∧
  (∀ r n, repeat a = Some r → play_time a ≤ datetime_max →
     datetime_max < play_time a + Z.of_nat n * interval r →
     reschedule_n n a = Raise (Exc OverflowError "date value out of range")).
Proof.
  split; [|split; [|split; [|split]]].
  - intros now'. unfold is_due. rewrite !Z.leb_le. lia.
  - intros H n. by apply reschedule_n_one_shot.
  - intros r n Hr Hmin Hmax. eexists. split.
    + by apply reschedule_n_recurring.
    + unfold is_due. simpl. by rewrite Z.leb_le.
  - intros r Hr [Hmin Hmax] Hnow. pose proof (interval_pos r) as Hpos.
    destruct (Z.le_gt_cases (play_time a) now) as [Hdue|Hnot].
    + set (k := (now - play_time a) / interval r).
      assert (0 ≤ k) as Hk by (apply Z.div_pos; lia).
      pose proof (Z.mul_div_le (now - play_time a) (interval r) Hpos) as H1.
      pose proof (Z.mul_succ_div_gt (now - play_time a) (interval r) Hpos) as H2.
      fold k in H1, H2.
      exists (Z.to_nat (k + 1)), (set_play_time
        (play_time a + Z.of_nat (Z.to_nat (k + 1)) * interval r) a).
      split.
      * apply reschedule_n_recurring; [done|done|]. rewrite Z2Nat.id by lia. nia.
      * unfold is_due. simpl. rewrite Z.leb_gt, Z2Nat.id by lia. nia.
    + exists 0%nat, a. split; [done|]. unfold is_due. by rewrite Z.leb_gt.
  - intros r n. apply reschedule_n_overflow.
Qed.

(** ** Python lists *)

Lemma py_getitem_out_of_range {A} (l : list A) (i : Z) :
  i < - Z.of_nat (length l) ∨ Z.of_nat (length l) ≤ i →
  py_getitem l i = Raise (Exc IndexError "list index out of range").
Proof.
  intros H. unfold py_getitem.
  set (n := Z.of_nat (length l)) in *.
  set (j := if i <? 0 then i + n else i).
  assert (j < 0 ∨ n ≤ j) as Hj.
  { unfold j. destruct (Z.ltb_spec i 0); lia. }
  destruct (Z.ltb_spec j 0); [done|].
  destruct (Z.leb_spec n j); [done|lia].
Qed.

Lemma py_getitem_in_range {A} (l : list A) (i : Z) :
  - Z.of_nat (length l) ≤ i < Z.of_nat (length l) →
  ∃ x, py_getitem l i = Return x ∧
       l !! Z.to_nat (if i <? 0 then i + Z.of_nat (length l) else i) = Some x.
Proof.
  intros H. unfold py_getitem.
  set (j := if i <? 0 then i + Z.of_nat (length l) else i).
  assert (0 ≤ j < Z.of_nat (length l)) as Hj.
  { unfold j. destruct (Z.ltb_spec i 0); lia. }
  destruct (Z.ltb_spec j 0); [lia|].
  destruct (Z.leb_spec (Z.of_nat (length l)) j); [lia|]. simpl.
  destruct (l !! Z.to_nat j) as [x|] eqn:E; [eauto|].
  apply lookup_ge_None_1 in E. lia.
Qed.

Lemma py_remove_spec {A} `{EqDecision A} (x : A) (l l' : list A) :
  py_remove x l = Return l' →
  l' `sublist_of` l ∧ (∀ a, a ∈ l → a ≠ x → a ∈ l') ∧ length l = S (length l').
Proof.
  revert l'. induction l as [|y l IH]; intros l' H; [done|].
  simpl in H. destruct (decide (x = y)) as [->|Hne].
  - injection H as <-. split; [by apply sublist_cons|]. split; [|done].
    intros a Ha Hay. by apply elem_of_cons in Ha as [?|?].
  - destruct (py_remove x l) as [l1|] eqn:E; [|done]. injection H as <-.
    destruct (IH l1 eq_refl) as (Hs & Hin & Hlen).
    split; [by apply sublist_skip|]. split; [|by simpl; rewrite Hlen].
    intros a Ha Hax. apply elem_of_cons in Ha as [->|Ha]; [by left|].
    right. by apply Hin.
Qed.

Lemma sorted_by_key_tail {A} (key : A → SortKey) x l :
  sorted_by_key key (x :: l) → sorted_by_key key l.
Proof. unfold sorted_by_key. by inversion 1. Qed.

Lemma last_snoc_some {A} (l : list A) x : list.last (l ++ [x]) = Some x.
Proof.
  induction l as [|y l IH]; [done|]. simpl.
  destruct (l ++ [x]) eqn:E; [by destruct l|done].
Qed.

(** ** The queue over whole runs *)

Section QueueFacts.
Variable fmt : string → gmap string string → result string.

Lemma interrupted_flag_step ev w1 w2 :
  same_but_interrupted w1 w2 →
  same_but_interrupted (exec (step fmt ev) w1) (exec (step fmt ev) w2).
Proof.
  unfold same_but_interrupted.
  destruct w1 as [h q c v l t i e s st ac], w2 as [h2 q2 c2 v2 l2 t2 i2 e2 s2 st2 ac2].
  simpl. intros (-> & -> & -> & -> & -> & -> & -> & -> & -> & ->).
  destruct t2 as [[ta [|]]|]; destruct ev as [[a|a]|sink]; exec_cases; done.
Qed.

Lemma add_announcement_conserves a w :
  let w' := exec (add_announcement fmt a) w in
  heap w' = heap w ∧
  started w' ++ queue w' ≡ₚ started w ++ queue w ++ [a].
Proof.
  cbv zeta. destruct (thread_running (playing_thread w)) eqn:H.
  - destruct (add_announcement_running fmt a w H) as (Hh & Hq & _ & _ & Hs & _).
    rewrite Hh, Hq, Hs. split; [done|]. by rewrite sort_by_key_perm.
  - destruct (add_announcement_idle fmt a w H)
      as (next & rest & E & Hh & Hq & _ & _ & Hs & _).
    rewrite Hh, Hq, Hs. split; [done|].
    rewrite <- app_assoc. simpl. rewrite <- E. by rewrite sort_by_key_perm.
Qed.

Lemma interrupt_with_live_conserves a w :
  let w' := exec (interrupt_with_live a) w in
  heap w' = heap w ∧
  started w' ++ queue w' ≡ₚ started w ++ queue w ++ [a].
Proof.
  cbv zeta. destruct (thread_running (playing_thread w)) eqn:H.
  - destruct (interrupt_with_live_running a w H) as (Hh & Hq & _ & _ & Hs & _).
    rewrite Hh, Hq, Hs. split; [done|].
    apply Permutation_app_head. by rewrite Permutation_cons_append.
  - destruct (interrupt_with_live_idle a w H) as (Hh & Hq & _ & _ & Hs & _).
    rewrite Hh, Hq, Hs. split; [done|].
    rewrite <- !app_assoc. apply Permutation_app_head. apply Permutation_app_comm.
Qed.

Lemma step_conserves_one_shot ev w :
  (∀ a, repeat (heap w a) = None) →
  let w' := exec (step fmt ev) w in
  heap w' = heap w ∧
  started w' ++ queue w' ≡ₚ started w ++ queue w ++ call_args [ev].
Proof.
  intros Hone. cbv zeta. destruct ev as [[a|a]|sink].
  - apply add_announcement_conserves.
  - apply interrupt_with_live_conserves.
  - change (call_args [PlaybackReturns sink]) with (@nil ref).
    rewrite app_nil_r. change (step fmt (PlaybackReturns sink))
      with (playback_returns fmt sink).
    destruct (playing_thread w) as [[a [|]]|] eqn:Hth.
    + rewrite (playback_returns_alive fmt a) by done.
      destruct (thread_exit_fields (exec (_play_announcement fmt a sink) w))
        as (-> & -> & _ & -> & _).
      destruct (play_announcement_one_shot fmt a sink w (Hone a))
        as (-> & -> & _ & _ & -> & _); [by rewrite Hth|done].
    + destruct w as [h q c v l th i e s st ac]. simpl in Hth. subst th. done.
    + destruct w as [h q c v l th i e s st ac]. simpl in Hth. subst th. done.
Qed.

Lemma in_step_step ev w : in_step w → in_step (exec (step fmt ev) w).
Proof.
  unfold in_step.
  destruct w as [h q c v l [[ta [|]]|] i e s st ac]; simpl;
    intros [Hl Hc]; destruct ev as [[a|a]|sink]; exec_cases;
    rewrite ?last_snoc_some;
    first [ done
          | split; [done|];
            first [ by left
                  | right; split; [done|]; split; [congruence|eauto] ] ].
Qed.

Lemma play_announcement_engine a sink w :
  engine (exec (_play_announcement fmt a sink) w) =
  engine w ++
    match py_getitem (voices w) (voice_id (heap w a)) with
    | Raise _ => []
    | Return voice =>
        [SetProperty "voice" (PyStr (Voice.id voice));
         SetProperty "rate" (PyInt 150);
         SetProperty "volume" (PyFloat 10);
         Say (get_text fmt (heap w a))] ++
        match sink with
        | SayRaises _ => []
        | RunAndWaitRaises _ | Speaks => [RunAndWait]
        end
    end.
Proof.
  destruct w as [h q c v l [[ta [|]]|] i e s st ac]; cbn [voices heap engine];
    exec_cases; rewrite <- ?app_assoc, ?app_nil_r; reflexivity.
Qed.

(** X4: after [add_announcement] the pending list is sorted by
    [(-priority, play_time)], whatever it was before; also when an earlier
    [interrupt_with_live] had put an announcement at its front. *)
Theorem add_announcement_leaves_sorted a w :
  let w' := exec (add_announcement fmt a) w in
  heap w' = heap w ∧ sorted_by_key (queue_key (heap w')) (queue w').
Proof.
  cbv zeta. destruct (thread_running (playing_thread w)) eqn:H.
  - destruct (add_announcement_running fmt a w H) as (Hh & Hq & _).
    rewrite Hh, Hq. split; [done|]. apply sort_by_key_sorted.
  - destruct (add_announcement_idle fmt a w H) as (next & rest & E & Hh & Hq & _).
    rewrite Hh, Hq. split; [done|].
    apply (sorted_by_key_tail _ next). rewrite <- E. apply sort_by_key_sorted.
Qed.

(** X5: a call of [add_announcement] or [interrupt_with_live] neither drops
    nor duplicates an announcement: what has been started and what is pending
    afterwards is what was started and pending before, and the argument,
    once.  The call changes no announcement. *)
Theorem call_never_drops_or_duplicates c w :
  let a := match c with CallAdd a | CallInterrupt a => a end in
  let w' := exec (call fmt c) w in
  heap w' = heap w ∧
  started w' ++ queue w' ≡ₚ started w ++ queue w ++ [a].
Proof.
  destruct c as [a|a]; cbv zeta; simpl call.
  - apply add_announcement_conserves.
  - apply interrupt_with_live_conserves.
Qed.

(** X6: when no announcement recurs, over any sequence of calls and playback
    completions the announcements started and pending are those started and
    pending at the outset and the arguments of the calls, each once: a
    completion adds and removes nothing. *)
Theorem one_shot_runs_conserve_announcements evs w :
  (∀ a, repeat (heap w a) = None) →
  let w' := run fmt evs w in
  heap w' = heap w ∧
  started w' ++ queue w' ≡ₚ started w ++ queue w ++ call_args evs.
Proof.
  cbv zeta. revert w. induction evs as [|ev evs IH]; intros w Hone.
  { simpl. by rewrite !app_nil_r. }
  rewrite run_cons.
  destruct (step_conserves_one_shot ev w Hone) as [Hh Hp].
  destruct (IH (exec (step fmt ev) w)) as [Hh' Hp']; [by rewrite Hh|].
  rewrite Hh', Hh. split; [done|]. rewrite Hp', (app_assoc (started _)), Hp.
  rewrite <- !app_assoc. do 2 apply Permutation_app_head.
  change (ev :: evs) with ([ev] ++ evs). unfold call_args. by rewrite omap_app.
Qed.

(** X7: a step starts at most one playback thread, and only when no thread is
    alive; the announcement it starts was pending or is the argument of the
    call.  A completion starts none. *)
Theorem thread_started_only_when_idle ev w :
  let w' := exec (step fmt ev) w in
  started w' = started w ∨
  (thread_running (playing_thread w) = false ∧
   ∃ a, started w' = started w ++ [a] ∧
        playing_thread w' = Some (mkThread a true) ∧
        (a ∈ queue w ∨ ev = Caller (CallAdd a) ∨ ev = Caller (CallInterrupt a))).
Proof.
  cbv zeta. destruct ev as [[a|a]|sink].
  - simpl step. destruct (thread_running (playing_thread w)) eqn:H.
    + left. by destruct (add_announcement_running fmt a w H) as (_ & _ & _ & _ & ? & _).
    + right. split; [done|].
      destruct (add_announcement_idle fmt a w H)
        as (next & rest & E & _ & _ & _ & Ht & Hs & _).
      exists next. split; [done|]. split; [done|].
      assert (next ∈ queue w ++ [a]) as Hin.
      { rewrite <- (sort_by_key_perm (queue_key (heap w))), E. by left. }
      apply elem_of_app in Hin as [?|Hin]; [by left|].
      apply list_elem_of_singleton in Hin as ->. right. by left.
  - simpl step. destruct (thread_running (playing_thread w)) eqn:H.
    + left. by destruct (interrupt_with_live_running a w H) as (_ & _ & _ & _ & ? & _).
    + right. split; [done|].
      destruct (interrupt_with_live_idle a w H) as (_ & _ & _ & Ht & Hs & _).
      exists a. eauto.
  - left. by destruct (playback_returns_starts_nothing fmt sink w) as [? _].
Qed.

(** X8: from a fresh queue on, over any sequence of calls and playback
    completions, [playing_thread] is the thread started last, and
    [current_announcement] is the announcement of that thread while it is
    alive.  Once the thread has ended [current_announcement] is [None],
    except after a thread that died in [reschedule]: then it still names
    that thread's announcement, a recurring one on which [reschedule]
    raises. *)
Theorem queue_in_step_with_thread evs heap0 vs :
  in_step (run fmt evs (AnnouncementQueue__init__ heap0 vs)).
Proof.
  assert (∀ w, in_step w → in_step (run fmt evs w)) as H; [|by apply H].
  induction evs as [|ev evs IH]; intros w Hw; [done|].
  rewrite run_cons. by apply IH, in_step_step.
Qed.

(** X9: the [interrupted] flag steers nothing.  Two runs of the same events
    from states that differ only in the flag end in states that differ only
    in the flag: the same pending list, threads, engine calls and messages. *)
Theorem interrupted_flag_has_no_effect evs b w :
  same_but_interrupted (run fmt evs w) (run fmt evs (exec (put_interrupted b) w)).
Proof.
  assert (∀ w1 w2, same_but_interrupted w1 w2 →
                   same_but_interrupted (run fmt evs w1) (run fmt evs w2)) as H.
  { induction evs as [|ev evs IH]; intros w1 w2 Hw; [done|].
    rewrite !run_cons. by apply IH, interrupted_flag_step. }
  apply H. by destruct w.
Qed.

(** X10: [voice_id] indexes the voices as a Python list is indexed: an index
    from [-len] up to [-1] counts from the end.  For every index in range the
    playback sets that voice, the rate and the volume, says the rendered text
    once and waits (unless [say] raised); the completion handling that
    follows makes no engine call. *)
Theorem voice_id_counts_from_either_end a sink w :
  let n := Z.of_nat (length (voices w)) in
  let i := voice_id (heap w a) in
  - n ≤ i < n →
  ∃ voice,
    voices w !! Z.to_nat (if i <? 0 then i + n else i) = Some voice ∧
    engine (exec (_play_announcement fmt a sink) w) =
    engine w ++
      [SetProperty "voice" (PyStr (Voice.id voice));
       SetProperty "rate" (PyInt 150);
       SetProperty "volume" (PyFloat 10);
       Say (get_text fmt (heap w a))] ++
      match sink with
      | SayRaises _ => []
      | RunAndWaitRaises _ | Speaks => [RunAndWait]
      end.
Proof.
  cbv zeta. intros H.
  destruct (py_getitem_in_range (voices w) _ H) as (voice & Hg & Hl).
  exists voice. split; [done|]. by rewrite play_announcement_engine, Hg.
Qed.

(** X11: a [voice_id] outside [-len, len) makes the playback fail before the
    engine is touched: no engine call is made and the status bar shows the
    text of the [IndexError]. *)
Theorem bad_voice_id_is_reported a sink w :
  voice_id (heap w a) < - Z.of_nat (length (voices w)) ∨
  Z.of_nat (length (voices w)) ≤ voice_id (heap w a) →
  let w' := exec (_play_announcement fmt a sink) w in
  engine w' = engine w ∧
  "Error playing announcement: list index out of range" ∈ status_bar w'.
Proof.
  intros H. apply py_getitem_out_of_range in H. cbv zeta.
  destruct w as [h q c v l [[ta [|]]|] i e s st ac]; simpl in H;
    exec_world; rewrite H; exec_cases; cbn [exc_str];
    change ("Error playing announcement: " +:+ "list index out of range")
      with "Error playing announcement: list index out of range";
    rewrite ?elem_of_app, ?list_elem_of_singleton; tauto.
Qed.

End QueueFacts.

(** The exception to the rule: the playback of a daily announcement due on
    the last day of the calendar ends with the thread dead, the announcement
    unchanged and not pending, and [current_announcement] still set. *)
Lemma thread_dies_in_reschedule_example :
  let w := run names_only [Caller (CallAdd 0%nat); PlaybackReturns Speaks]
             (AnnouncementQueue__init__ heap_last_day one_voice) in
  playing_thread w = Some (mkThread 0%nat false) ∧
  current_announcement w = Some 0%nat ∧
  queue w = [] ∧
  heap w 0%nat = heap_last_day 0%nat.
Proof. vm_compute. done. Qed.

Lemma one_shot_runs_conserve_announcements_witness :
  heap (run names_only
          [Caller (CallAdd 0%nat); Caller (CallAdd 1%nat);
           PlaybackReturns Speaks; Caller (CallInterrupt 2%nat)]
          (AnnouncementQueue__init__ heap_abc one_voice)) = heap_abc ∧
  started (run names_only
             [Caller (CallAdd 0%nat); Caller (CallAdd 1%nat);
              PlaybackReturns Speaks; Caller (CallInterrupt 2%nat)]
             (AnnouncementQueue__init__ heap_abc one_voice)) ++
  queue (run names_only
           [Caller (CallAdd 0%nat); Caller (CallAdd 1%nat);
            PlaybackReturns Speaks; Caller (CallInterrupt 2%nat)]
           (AnnouncementQueue__init__ heap_abc one_voice))
  ≡ₚ [] ++ [] ++ [0; 1; 2]%nat.
Proof.
  apply (one_shot_runs_conserve_announcements names_only
           [Caller (CallAdd 0%nat); Caller (CallAdd 1%nat);
            PlaybackReturns Speaks; Caller (CallInterrupt 2%nat)]
           (AnnouncementQueue__init__ heap_abc one_voice)).
  intros [|[|a]]; reflexivity.
Defined.

Lemma voice_id_counts_from_either_end_witness :
  ∃ voice,
    two_voices !! 1%nat = Some voice ∧
    engine (exec (_play_announcement names_only 0%nat Speaks)
              (playing_first (heap_voice (-1)) two_voices)) =
    [] ++
      [SetProperty "voice" (PyStr (Voice.id voice));
       SetProperty "rate" (PyInt 150);
       SetProperty "volume" (PyFloat 10);
       Say "Platform change"] ++ [RunAndWait].
Proof.
  apply (voice_id_counts_from_either_end names_only 0%nat Speaks
           (playing_first (heap_voice (-1)) two_voices)).
  vm_compute. split; [discriminate|reflexivity].
Defined.

Lemma bad_voice_id_is_reported_witness :
  engine (exec (_play_announcement names_only 0%nat Speaks)
            (playing_first (heap_voice 5) one_voice)) = [] ∧
  "Error playing announcement: list index out of range"
    ∈ status_bar (exec (_play_announcement names_only 0%nat Speaks)
                    (playing_first (heap_voice 5) one_voice)).
Proof.
  apply (bad_voice_id_is_reported names_only 0%nat Speaks
           (playing_first (heap_voice 5) one_voice)).
  right. vm_compute. discriminate.
Defined.

(** ** The due-checker over any watch list *)

Section DueCheckerFacts.
Variable fmt : string → gmap string string → result string.

Lemma add_announcement_heap a w :
  heap (exec (add_announcement fmt a) w) = heap w.
Proof. apply add_announcement_conserves. Qed.

Lemma check_loop_keeps now fuel : ∀ i watch w,
  ∃ watch',
    (check_loop fmt fuel now i watch w).1 = Return watch' ∧
    watch' `sublist_of` watch ∧
    heap (check_loop fmt fuel now i watch w).2 = heap w ∧
    ∀ a, a ∈ watch →
         is_due (heap w a) now = false ∨ repeat (heap w a) ≠ None →
         a ∈ watch'.
Proof.
  induction fuel as [|fuel IH]; intros i watch w.
  { exists watch. by repeat split. }
  destruct (watch !! i) as [ann|] eqn:Hi.
  2: { exists watch. simpl. rewrite Hi. by repeat split. }
  rewrite (check_loop_step _ _ _ _ _ _ ann) by done.
  destruct (is_due (heap w ann) now) eqn:Hdue; [|apply IH].
  cbv zeta. pose proof (add_announcement_heap ann w) as Hh.
  set (w1 := exec (add_announcement fmt ann) w) in *.
  destruct (repeat (heap w1 ann)) as [r|] eqn:Hr.
  - destruct (IH (S i) watch w1) as (watch' & H1 & H2 & H3 & H4).
    exists watch'. rewrite H1, H3, Hh. repeat split; try done.
    intros a Ha Hkeep. apply H4; [done|]. by rewrite Hh.
  - destruct (py_remove_lookup watch i ann Hi) as (watch1 & Hrm & _).
    rewrite Hrm. destruct (py_remove_spec _ _ _ Hrm) as (Hsub & Hin & _).
    destruct (IH (S i) watch1 w1) as (watch' & H1 & H2 & H3 & H4).
    exists watch'. rewrite H1, H3, Hh. repeat split; try done.
    + by etrans.
    + intros a Ha Hkeep. apply H4; [|by rewrite Hh].
      apply Hin; [done|]. intros ->. rewrite Hh in Hr.
      destruct Hkeep; congruence.
Qed.

Lemma check_loop_enqueues now fuel : ∀ i watch w,
  (length watch ≤ i + fuel)%nat →
  (∀ a, a ∈ watch → is_due (heap w a) now = true → repeat (heap w a) ≠ None) →
  let out := check_loop fmt fuel now i watch w in
  out.1 = Return watch ∧ heap out.2 = heap w ∧
  started out.2 ++ queue out.2 ≡ₚ
    started w ++ queue w ++
    List.filter (λ a, is_due (heap w a) now) (drop i watch).
Proof.
  induction fuel as [|fuel IH]; intros i watch w Hlen Hrec; cbv zeta.
  { rewrite drop_ge by lia. simpl. by rewrite app_nil_r. }
  destruct (watch !! i) as [ann|] eqn:Hi.
  2: { simpl. rewrite Hi. apply lookup_ge_None_1 in Hi.
       rewrite drop_ge by lia. simpl. by rewrite app_nil_r. }
  rewrite (check_loop_step _ _ _ _ _ _ ann) by done.
  rewrite (drop_S _ _ _ Hi). simpl List.filter.
  destruct (is_due (heap w ann) now) eqn:Hdue; [|apply IH; [lia|done]].
  cbv zeta. destruct (add_announcement_conserves fmt ann w) as [Hh Hperm].
  set (w1 := exec (add_announcement fmt ann) w) in *.
  assert (repeat (heap w1 ann) ≠ None) as Hr.
  { rewrite Hh. apply Hrec; [|done]. by eapply list_elem_of_lookup_2. }
  destruct (repeat (heap w1 ann)) as [r|]; [|done].
  destruct (IH (S i) watch w1) as (H1 & H2 & H3); [lia|by rewrite Hh|].
  rewrite H1, H2, Hh. repeat split; try done.
  rewrite H3, Hh. rewrite (app_assoc (started w1)), Hperm.
  rewrite <- !app_assoc. done.
Qed.

Lemma check_loop_nothing_due now fuel : ∀ i watch w,
  (∀ a, a ∈ watch → is_due (heap w a) now = false) →
  check_loop fmt fuel now i watch w = (Return watch, w).
Proof.
  induction fuel as [|fuel IH]; intros i watch w H; [done|].
  destruct (watch !! i) as [ann|] eqn:Hi.
  2: { simpl. by rewrite Hi. }
  rewrite (check_loop_step _ _ _ _ _ _ ann) by done.
  rewrite H by (by eapply list_elem_of_lookup_2). by apply IH.
Qed.

(** X12: [check_schedules] completes without an exception on every watch list
    and every state of the queue.  The watch list it leaves is the old one
    with some entries taken out, in the same order; an entry that is not due,
    or that recurs, is never taken out.  No announcement is changed. *)
Theorem check_schedules_only_drops_due_one_shots now watch w :
  let out := check_schedules fmt now watch w in
  ∃ watch',
    out.1 = Return watch' ∧
    watch' `sublist_of` watch ∧
    heap out.2 = heap w ∧
    ∀ a, a ∈ watch →
         is_due (heap w a) now = false ∨ repeat (heap w a) ≠ None →
         a ∈ watch'.
Proof. cbv zeta. unfold check_schedules. apply check_loop_keeps. Qed.

(** X13: when every due entry of the watch list recurs, [check_schedules]
    hands each due entry to the queue exactly once and leaves the watch list
    as it was: the entries skipped by the removal of a one-shot are the only
    ones it can miss. *)
Theorem check_schedules_enqueues_due_recurring now watch w :
  (∀ a, a ∈ watch → is_due (heap w a) now = true → repeat (heap w a) ≠ None) →
  let out := check_schedules fmt now watch w in
  out.1 = Return watch ∧ heap out.2 = heap w ∧
  started out.2 ++ queue out.2 ≡ₚ
    started w ++ queue w ++ List.filter (λ a, is_due (heap w a) now) watch.
Proof.
  intros H. unfold check_schedules.
  apply (check_loop_enqueues now _ 0%nat); [lia|done].
Qed.

(** X14: a tick at which no entry of the watch list is due changes nothing,
    neither the watch list nor the queue. *)
Theorem check_schedules_nothing_due now watch w :
  (∀ a, a ∈ watch → is_due (heap w a) now = false) →
  check_schedules fmt now watch w = (Return watch, w).
Proof. intros H. unfold check_schedules. by apply check_loop_nothing_due. Qed.

End DueCheckerFacts.

Lemma check_schedules_enqueues_due_recurring_witness :
  (check_schedules names_only (clock 8 2) [1; 0; 2]%nat
     (AnnouncementQueue__init__ heap_weekly one_voice)).1 = Return [1; 0; 2]%nat.
Proof.
  refine (proj1 (check_schedules_enqueues_due_recurring names_only (clock 8 2)
                   [1; 0; 2]%nat
                   (AnnouncementQueue__init__ heap_weekly one_voice) _)).
  intros [|a] _; vm_compute; discriminate.
Defined.

Lemma check_schedules_nothing_due_witness :
  check_schedules names_only (clock 7 0) [0; 1]%nat
    (AnnouncementQueue__init__ heap_weekly one_voice) =
  (Return [0; 1]%nat, AnnouncementQueue__init__ heap_weekly one_voice).
Proof.
  apply check_schedules_nothing_due. intros [|a] _; reflexivity.
Defined.

(** ** The queue bound when the program runs *)

(** X15: the second [AnnouncementQueue] is a plain first-in first-out list.
    After any sequence of calls its pending list is the original one followed
    by the arguments of the [add_announcement] calls in call order;
    [interrupt_with_live] never enqueues; every call shows one message and no
    announcement is changed. *)
Theorem rebound_queue_is_fifo cs w :
  let w' := Rebound.run cs w in
  Rebound.queue w' = Rebound.queue w ++ added cs ∧
  Rebound.heap w' = Rebound.heap w ∧
  length (Rebound.status_bar w') = (length (Rebound.status_bar w) + length cs)%nat.
Proof.
  cbv zeta. revert w. induction cs as [|c cs IH]; intros w.
  { simpl. rewrite app_nil_r. repeat split; lia. }
  change (Rebound.run (c :: cs) w) with (Rebound.run cs (Rebound.call c w)).
  destruct (IH (Rebound.call c w)) as (H1 & H2 & H3). rewrite H1, H2, H3.
  destruct c as [a|a]; simpl; rewrite ?length_app, <- ?app_assoc; simpl;
    repeat split; lia.
Qed.

(** ** The variables editor *)

Lemma all_chars_app p s t :
  all_chars p (s +:+ t) = all_chars p s && all_chars p t.
Proof.
  induction s as [|c s IH]; [done|].
  rewrite append_cons. simpl. by rewrite IH, andb_assoc.
Qed.

Lemma py_rstrip_cons c s :
  py_rstrip (String c s) = String c s → py_rstrip s = s.
Proof.
  simpl. destruct (py_rstrip s) as [|d r] eqn:E.
  - destruct (py_isspace c); congruence.
  - congruence.
Qed.

Lemma py_rstrip_idem s : py_rstrip (py_rstrip s) = py_rstrip s.
Proof.
  induction s as [|c s IH]; [done|]. simpl.
  destruct (py_rstrip s) as [|d r] eqn:E.
  - destruct (py_isspace c) eqn:Hc; [done|]. simpl. by rewrite Hc.
  - change (py_rstrip (String c (String d r)))
      with (match py_rstrip (String d r) with
            | EmptyString => if py_isspace c then EmptyString else String c EmptyString
            | r' => String c r'
            end).
    by rewrite IH.
Qed.

Lemma py_lstrip_idem s : py_lstrip (py_lstrip s) = py_lstrip s.
Proof.
  induction s as [|c s IH]; [done|]. simpl.
  destruct (py_isspace c) eqn:Hc; [done|]. simpl. by rewrite Hc.
Qed.

Lemma py_rstrip_lstrip s :
  py_rstrip s = s → py_rstrip (py_lstrip s) = py_lstrip s.
Proof.
  induction s as [|c s IH]; [done|]. intros H.
  change (py_lstrip (String c s))
    with (if py_isspace c then py_lstrip s else String c s).
  destruct (py_isspace c); [|done].
  apply IH. by eapply py_rstrip_cons.
Qed.

Lemma py_strip_idem s : py_strip (py_strip s) = py_strip s.
Proof.
  unfold py_strip.
  rewrite (py_rstrip_lstrip (py_rstrip s)) by apply py_rstrip_idem.
  apply py_lstrip_idem.
Qed.

Lemma all_chars_lstrip p s :
  all_chars p s = true → all_chars p (py_lstrip s) = true.
Proof.
  induction s as [|c s IH]; [done|]. intros H.
  change (py_lstrip (String c s))
    with (if py_isspace c then py_lstrip s else String c s).
  destruct (py_isspace c); [|done].
  simpl in H. apply andb_prop in H as [_ H]. by apply IH.
Qed.

Lemma all_chars_rstrip p s :
  all_chars p s = true → all_chars p (py_rstrip s) = true.
Proof.
  induction s as [|c s IH]; [done|]. simpl. intros H.
  apply andb_prop in H as [Hc H]. specialize (IH H).
  destruct (py_rstrip s) as [|d r].
  - destruct (py_isspace c); [done|]. simpl. by rewrite Hc.
  - simpl in *. by rewrite Hc, IH.
Qed.

Lemma all_chars_strip p s :
  all_chars p s = true → all_chars p (py_strip s) = true.
Proof. intros H. by apply all_chars_lstrip, all_chars_rstrip. Qed.

Lemma split_at_equals_spec line k v :
  split_at_equals line = Some (k, v) →
  line = k +:+ "=" +:+ v ∧
  all_chars (λ c, negb (Ascii.eqb c "="%char)) k = true.
Proof.
  revert k. induction line as [|c line IH]; intros k; [done|]. simpl.
  destruct (Ascii.eqb c "="%char) eqn:Hc.
  - intros [= <- <-]. apply Ascii.eqb_eq in Hc as ->. done.
  - destruct (split_at_equals line) as [[k' v']|]; [|done].
    intros [= <- <-]. destruct (IH k' eq_refl) as [-> Hk].
    split; [done|]. simpl. by rewrite Hc, Hk.
Qed.

Lemma split_at_equals_join k v :
  all_chars (λ c, negb (Ascii.eqb c "="%char)) k = true →
  split_at_equals (k +:+ "=" +:+ v) = Some (k, v).
Proof.
  induction k as [|c k IH]; [done|]. intros H. simpl in H.
  apply andb_prop in H as [Hc H]. apply negb_true_iff in Hc.
  rewrite append_cons. cbn [split_at_equals]. by rewrite Hc, IH.
Qed.

Lemma py_splitlines_one_line_aux n : ∀ s,
  (String.length s ≤ n)%nat → Forall one_line (py_splitlines s).
Proof.
  induction n as [|n IH]; intros s Hn.
  { destruct s; [constructor|simpl in Hn; lia]. }
  destruct s as [|c s]; [constructor|]. simpl in Hn.
  simpl. destruct (is_linebreak c) eqn:Hc.
  - constructor; [done|].
    destruct (Ascii.eqb c "013"%char); [|apply IH; lia].
    destruct s as [|c' s']; [constructor|].
    destruct (Ascii.eqb c' "010"%char); apply IH; simpl in *; lia.
  - assert (Forall one_line (py_splitlines s)) as H by (apply IH; lia).
    destruct (py_splitlines s) as [|l ls].
    + repeat constructor. unfold one_line. simpl. by rewrite Hc.
    + apply list.Forall_cons in H as [Hl Hls]. constructor; [|done].
      unfold one_line in *. simpl. by rewrite Hc, Hl.
Qed.

Lemma py_splitlines_one_line s : Forall one_line (py_splitlines s).
Proof. by apply (py_splitlines_one_line_aux (String.length s)). Qed.

Lemma py_splitlines_line line rest :
  one_line line →
  py_splitlines (line +:+ newline +:+ rest) = line :: py_splitlines rest.
Proof.
  unfold one_line. induction line as [|c line IH]; [done|]. intros H. simpl in H.
  apply andb_prop in H as [Hc H]. apply negb_true_iff in Hc.
  rewrite append_cons. cbn [py_splitlines]. by rewrite Hc, IH.
Qed.

Lemma py_splitlines_last line :
  one_line line → line ≠ EmptyString → py_splitlines line = [line].
Proof.
  unfold one_line. induction line as [|c line IH]; [done|]. simpl. intros H _.
  apply andb_prop in H as [Hc H]. apply negb_true_iff in Hc. rewrite Hc.
  destruct line as [|d line]; [done|]. by rewrite IH.
Qed.

Lemma py_splitlines_join lines :
  Forall (λ l, one_line l ∧ l ≠ EmptyString) lines →
  py_splitlines (py_join newline lines) = lines.
Proof.
  induction 1 as [|l ls [Hl Hne] Hls IH]; [done|].
  destruct ls as [|l' ls].
  - by apply py_splitlines_last.
  - change (py_join newline (l :: l' :: ls))
      with (l +:+ newline +:+ py_join newline (l' :: ls)).
    by rewrite py_splitlines_line, IH.
Qed.

Lemma add_lines_clean lines : ∀ vars,
  Forall one_line lines →
  map_Forall (λ k v, clean_key k ∧ clean_value v) vars →
  map_Forall (λ k v, clean_key k ∧ clean_value v) (foldl add_line vars lines).
Proof.
  induction lines as [|l ls IH]; intros vars Hls Hvars; [done|].
  apply list.Forall_cons in Hls as [Hl Hls]. simpl. apply IH; [done|].
  unfold add_line. destruct (split_at_equals l) as [[k v]|] eqn:E; [|done].
  apply split_at_equals_spec in E as [-> Hk].
  unfold one_line in Hl. rewrite !all_chars_app in Hl.
  apply andb_prop in Hl as [Hk1 Hv]. apply andb_prop in Hv as [_ Hv].
  apply map_Forall_insert_2; [|done].
  unfold clean_key, clean_value, one_line.
  repeat split; auto using py_strip_idem, all_chars_strip.
Qed.

Lemma add_lines_items items : ∀ vars,
  Forall (λ kv, clean_key kv.1 ∧ clean_value kv.2) items →
  foldl add_line vars ((λ kv, kv.1 +:+ "=" +:+ kv.2) <$> items) =
  foldl (λ m kv, <[kv.1:=kv.2]> m) vars items.
Proof.
  induction items as [|[k v] items IH]; intros vars H; [done|].
  apply list.Forall_cons in H as [[(Hk & _ & Hk') [Hv _]] H]. simpl in *.
  rewrite <- IH by done. f_equal.
  unfold add_line. by rewrite split_at_equals_join, Hk, Hv.
Qed.

Lemma foldl_insert_list_to_map (items : list (string * string)) :
  foldl (λ m kv, <[kv.1:=kv.2]> m) (∅ : gmap string string) items =
  list_to_map (reverse items).
Proof.
  induction items as [|[k v] items IH] using rev_ind; [done|].
  by rewrite foldl_app, reverse_app, IH.
Qed.

Lemma items_lines (m : gmap string string) items :
  items ≡ₚ map_to_list m →
  map_Forall (λ k v, clean_key k ∧ clean_value v) m →
  Forall (λ kv, clean_key kv.1 ∧ clean_value kv.2) items.
Proof.
  intros Hp Hm. apply list.Forall_forall. intros [k v] Hin.
  rewrite Hp in Hin. apply elem_of_map_to_list in Hin. by apply Hm in Hin.
Qed.

(** X16: whatever text the editor holds, every variable that
    [get_announcement] reads from it has a key and a value without white
    space at either end and without a line boundary, and a key without
    ['=']. *)
Theorem get_announcement_variables_clean text :
  map_Forall (λ k v, clean_key k ∧ clean_value v)
             (get_announcement_variables text).
Proof.
  apply add_lines_clean; [apply py_splitlines_one_line|].
  apply map_Forall_empty.
Qed.

(** X17: the text that the dialog shows for the variables of an announcement
    is read back as the same variables, in whatever order the dict yields
    them, provided the keys and values are clean in the sense above; the
    text shown for an announcement without variables is read back as the
    two sample variables [train_no] and [platform]. *)
Theorem variables_round_trip (m : gmap string string) items :
  items ≡ₚ map_to_list m →
  map_Forall (λ k v, clean_key k ∧ clean_value v) m →
  get_announcement_variables (init_ui_variables_text (Some items)) =
  if decide (m = ∅) then {[ "train_no" := "123"; "platform" := "4" ]} else m.
Proof.
  intros Hp Hm. destruct (decide (m = ∅)) as [->|Hne].
  { rewrite map_to_list_empty in Hp. apply Permutation_nil_r in Hp as ->.
    vm_compute. reflexivity. }
  pose proof (items_lines m items Hp Hm) as Hitems.
  assert (init_ui_variables_text (Some items) =
          py_join newline ((λ kv, kv.1 +:+ "=" +:+ kv.2) <$> items)) as ->.
  { destruct items as [|kv kvs]; [|reflexivity].
    symmetry in Hp. apply Permutation_nil_r, map_to_list_empty_iff in Hp. done. }
  unfold get_announcement_variables.
  rewrite py_splitlines_join.
  2: { apply Forall_fmap. eapply list.Forall_impl; [exact Hitems|].
       intros [k v] [(_ & Hk & _) [_ Hv]]. simpl in *. split.
       - unfold one_line in *. rewrite !all_chars_app, Hk, Hv. done.
       - destruct k; done. }
  rewrite add_lines_items, foldl_insert_list_to_map by done.
  assert (NoDup items.*1) as Hnd.
  { rewrite Hp. apply NoDup_fst_map_to_list. }
  rewrite <- (list_to_map_to_list m).
  apply list_to_map_proper; [by rewrite fmap_reverse, reverse_Permutation|].
  by rewrite reverse_Permutation.
Qed.

Lemma variables_round_trip_witness :
  get_announcement_variables (init_ui_variables_text (Some gate_items)) =
  if decide (gate_variables = ∅)
  then {[ "train_no" := "123"; "platform" := "4" ]} else gate_variables.
Proof.
  apply variables_round_trip.
  - vm_compute. first [reflexivity | apply perm_swap].
  - unfold gate_variables, gate_items. simpl list_to_map.
    repeat apply map_Forall_insert_2; try apply map_Forall_empty;
      vm_compute; done.
Defined.

(** ** The live announcement button *)

Lemma py_lstrip_spaces s :
  all_chars py_isspace s = true → py_lstrip s = EmptyString.
Proof.
  induction s as [|c s IH]; [done|]. simpl. intros H.
  apply andb_prop in H as [-> H]. by apply IH.
Qed.

Lemma py_rstrip_empty s :
  py_rstrip s = EmptyString ↔ all_chars py_isspace s = true.
Proof.
  induction s as [|c s IH]; [done|]. simpl.
  destruct (py_rstrip s) as [|d r].
  - destruct (py_isspace c); simpl; [|done]. tauto.
  - destruct IH as [_ IH]. split; [done|]. intros H.
    apply andb_prop in H as [_ H]. by apply IH in H.
Qed.

Lemma py_lstrip_empty s :
  py_rstrip s = s → py_lstrip s = EmptyString → s = EmptyString.
Proof.
  induction s as [|c s IH]; [done|]. intros Hr.
  change (py_lstrip (String c s))
    with (if py_isspace c then py_lstrip s else String c s).
  destruct (py_isspace c) eqn:Hc; [|done]. intros Hl.
  assert (s = EmptyString) as -> by (apply IH; [by eapply py_rstrip_cons|done]).
  simpl in Hr. by rewrite Hc in Hr.
Qed.

Lemma py_strip_empty s :
  py_strip s = EmptyString ↔ all_chars py_isspace s = true.
Proof.
  unfold py_strip. split.
  - intros H. apply py_rstrip_empty.
    apply py_lstrip_empty; [apply py_rstrip_idem|done].
  - intros H. apply py_rstrip_empty in H. by rewrite H.
Qed.

(** X18: a live announcement is only ever displayed.  When the dialog was
    confirmed and the text has a character that is not white space, the status
    bar shows ["Live: "] followed by the text as typed, not stripped; a
    cancelled dialog or a text of white space only does nothing at all.  In
    no case is anything put into the queue. *)
Theorem live_announcement_only_shows_text text ok now fresh w :
  let w' := live_announcement text ok now fresh w in
  Rebound.queue w' = Rebound.queue w ∧
  Rebound.status_bar w' =
    Rebound.status_bar w ++
    (if ok && negb (all_chars py_isspace text) then ["Live: " +:+ text] else []) ∧
  (ok && negb (all_chars py_isspace text) = false → w' = w).
Proof.
  cbv zeta. unfold live_announcement.
  destruct (String.eqb_spec (py_strip text) EmptyString) as [E|E].
  - apply py_strip_empty in E. rewrite E, !andb_false_r.
    by rewrite app_nil_r.
  - assert (all_chars py_isspace text = false) as ->.
    { destruct (all_chars py_isspace text) eqn:H; [|done].
      by apply py_strip_empty in H. }
    destruct ok; simpl; [|by rewrite app_nil_r].
    rewrite fn_lookup_insert. done.
Qed.
